(** * again: port allocator, forwarder registry, start-up parsing, supervisor

    A shallow embedding of [main.go].  Go's [int] flags are [Z]; a [uint16]
    is a [Z] reduced modulo 2^16 at every conversion and arithmetic step;
    [*portForwarder] is an index into a heap of forwarder records, so that
    the registry [portMap] and the accept loops share the same object.
    Log output other than [log.Fatalln] is not modelled. *)

From Stdlib Require Import ZArith Lia Ascii String.
From stdpp Require Import gmap strings list fin_maps pretty.

Local Open Scope Z_scope.

(** ** Machine integers *)

Definition uint16 (z : Z) : Z := z mod 65536.
Definition uint32 (z : Z) : Z := z mod 4294967296.

(** ** Package-level state *)

(** [type portForwarder struct { env string; src uint16; dest uint32 }] *)
Record portForwarder := PortForwarder {
  env : string;
  src : Z;
  dest : Z;
}.

(** The package variables, the forwarders allocated so far ([heap], a
    pointer is a position in it) and the receivers of the goroutines
    launched by [go p.Run()] ([spawned]). *)
Record state := State {
  portMin : Z;
  portMax : Z;
  portCycle : Z;
  heap : list portForwarder;
  portMap : gmap Z nat;
  spawned : list nat;
}.

Definition set_portCycle (c : Z) (g : state) : state :=
  State (portMin g) (portMax g) c (heap g) (portMap g) (spawned g).

Definition set_heap (h : list portForwarder) (g : state) : state :=
  State (portMin g) (portMax g) (portCycle g) h (portMap g) (spawned g).

Definition set_portMap (m : gmap Z nat) (g : state) : state :=
  State (portMin g) (portMax g) (portCycle g) (heap g) m (spawned g).

Definition set_spawned (l : list nat) (g : state) : state :=
  State (portMin g) (portMax g) (portCycle g) (heap g) (portMap g) l.

(** ** The allocator *)

(** [func nextPort() uint16]: increment (wrapping at 2^16), compare with
    [uint16(portMax)], reset to [uint16(portMin)], return the cursor. *)
Definition nextPort (g : state) : Z * state :=
  let c := uint16 (portCycle g + 1) in
  let c' := if c =? uint16 (portMax g) then uint16 (portMin g) else c in
  (c', set_portCycle c' g).

Global Arguments nextPort : simpl never.

(** [portCycle = uint16(portMin) - 1] in [init]. *)
Definition init_portCycle (g : state) : state :=
  set_portCycle (uint16 (uint16 (portMin g) - 1)) g.

(** [n] successive calls, results in call order. *)
Fixpoint nextPorts (n : nat) (g : state) : list Z * state :=
  match n with
  | O => ([], g)
  | S n' =>
      let '(p, g1) := nextPort g in
      let '(ps, g2) := nextPorts n' g1 in
      (p :: ps, g2)
  end.

Definition set_dest (d : Z) (p : portForwarder) : portForwarder :=
  PortForwarder (env p) (src p) d.

(** [func (p *portForwarder) Cycle() uint16] *)
Definition Cycle (p : nat) (g : state) : Z * state :=
  let '(port, g1) := nextPort g in
  (port, set_heap (alter (set_dest (uint32 port)) p (heap g1)) g1).

(** The range is one of TCP ports: [0 <= min < max <= 2^16]. *)
Definition port_range (g : state) : Prop :=
  0 <= portMin g /\ portMin g < portMax g /\ portMax g <= 65536.

Definition range_size (g : state) : Z := portMax g - portMin g.

(** Cursor value after [j] calls: the initial cursor for [j = 0]. *)
Definition cursor_at (g : state) (j : nat) : Z :=
  match j with
  | O => uint16 (uint16 (portMin g) - 1)
  | S i => portMin g + Z.of_nat i mod range_size g
  end.

(** ** Library functions used by [init] *)

(** [strings.Split(s, sep)] for a one-byte separator. *)
Fixpoint Split (s : string) (sep : ascii) : list string :=
  match s with
  | EmptyString => [EmptyString]
  | String c r =>
      if Ascii.eqb c sep then EmptyString :: Split r sep
      else match Split r sep with
           | h :: t => String c h :: t
           | [] => [String c EmptyString]
           end
  end.

(** [strings.SplitN(s, sep, 2)] for a one-byte separator: cut at the
    first separator. *)
Fixpoint SplitN2 (s : string) (sep : ascii) : list string :=
  match s with
  | EmptyString => [EmptyString]
  | String c r =>
      if Ascii.eqb c sep then [EmptyString; r]
      else match SplitN2 r sep with
           | h :: t => String c h :: t
           | [] => [String c EmptyString]
           end
  end.

Definition digit (c : ascii) : option Z :=
  let n := Z.of_N (N_of_ascii c) - 48 in
  if (0 <=? n) && (n <=? 9) then Some n else None.

Fixpoint digits (s : string) (acc : Z) : option Z :=
  match s with
  | EmptyString => Some acc
  | String c r =>
      match digit c with
      | Some d => digits r (acc * 10 + d)
      | None => None
      end
  end.

(** [strconv.Atoi] on a 64-bit [int]: an optional sign, at least one
    decimal digit, nothing else, and a value that fits; [None] is the
    error result. *)
Definition Atoi (s : string) : option Z :=
  match s with
  | EmptyString => None
  | String c r =>
      let neg := Ascii.eqb c "-"%char in
      let body := if neg || Ascii.eqb c "+"%char then r else s in
      match body with
      | EmptyString => None
      | _ =>
          match digits body 0 with
          | Some n =>
              let v := if neg then - n else n in
              if (- 2 ^ 63 <=? v) && (v <? 2 ^ 63) then Some v else None
          | None => None
          end
      end
  end.

(** [fmt.Sprintf("%s=localhost:%d", name, port)] *)
Definition Sprintf_env (name : string) (port : Z) : string :=
  name +:+ "=localhost:" +:+ pretty port.

(** ** Start-up *)

(** The flag values [init] reads once [flag.Parse()] has returned; on a
    command line it cannot parse, [flag.Parse()] ends the program
    itself, before anything below. *)
Record flags := Flags {
  addrEnvs : string;
  flag_portMin : Z;
  flag_portMax : Z;
  Args : list string;
}.

(** [log.Fatalln] ends the program; the state reached is kept. *)
Inductive outcome :=
| Fatal (msg : string) (g : state)
| Ok (g : state).

(** The package variables before [init] runs. *)
Definition state0 (f : flags) : state :=
  State (flag_portMin f) (flag_portMax f) 0 [] ∅ [].

(** [func newPortForwarder(env string, src uint16) *portForwarder] *)
Definition newPortForwarder (name : string) (s : Z) (g : state)
  : nat * state :=
  let p := length (heap g) in
  (p, set_spawned (spawned g ++ [p])
        (set_heap (heap g ++ [PortForwarder name s 0]) g)).

(** [portMap[k] = newPortForwarder(name, k)] *)
Definition register (name : string) (k : Z) (g : state) : state :=
  let '(p, g1) := newPortForwarder name k g in
  set_portMap (<[k := p]> (portMap g1)) g1.

(** The loop of [init] over [strings.Split(addrEnvs, ",")]. *)
Fixpoint init_pairs (l : list string) (g : state) : outcome :=
  match l with
  | [] => Ok g
  | addrEnv :: rest =>
      match SplitN2 addrEnv ":"%char with
      | [name; port_s] =>
          match Atoi port_s with
          | None => Fatal "Syntax error: addr-env pair port invalid." g
          | Some port => init_pairs rest (register name (uint16 port) g)
          end
      | _ => Fatal "Syntax error: addr-env pair missing port." g
      end
  end.

(** [func init()] *)
Definition init (f : flags) : outcome :=
  if (length (Args f) <? 1)%nat
  then Fatal "You must provide a command to run." (state0 f)
  else init_pairs (Split (addrEnvs f) ","%char) (init_portCycle (state0 f)).

(** A list element that [init] accepts. *)
Definition valid_pair (s : string) : bool :=
  match SplitN2 s ":"%char with
  | [_; port_s] =>
      match Atoi port_s with
      | Some _ => true
      | None => false
      end
  | _ => false
  end.

Definition outcome_state (o : outcome) : state :=
  match o with
  | Fatal _ g => g
  | Ok g => g
  end.

(** The two messages of the loop of [init]. *)
Definition syntax_error (msg : string) : Prop :=
  msg = "Syntax error: addr-env pair missing port." \/
  msg = "Syntax error: addr-env pair port invalid.".

(** Whether byte [c] occurs in [s]. *)
Fixpoint contains (c : ascii) (s : string) : bool :=
  match s with
  | EmptyString => false
  | String a r => Ascii.eqb a c || contains c r
  end.

(** ** The environment the program runs in *)

(** What the supervisor meets.  [Environ]: [os.Environ()].  [Start i]:
    the result of the [i]-th [cmd.Start()], the child's pid or an error.
    [rangeOrder i m]: the order in which the [i]-th [range portMap]
    visits the entries of [m]. *)
Record world := World {
  Environ : list string;
  Start : nat -> option Z;
  rangeOrder : nat -> gmap Z nat -> list (Z * nat);
}.

(** A [range] over a map visits every entry once, in some order. *)
Definition range_complete (w : world) : Prop :=
  forall i m, rangeOrder w i m ≡ₚ map_to_list m.

(** ** The forwarder's accept loop *)

Inductive run_status :=
| Returned
| Serving.

Inductive endpoint := sock | remote.

Inductive relay := ReadThread | WriteThread.

#[global] Instance relay_eq_dec : EqDecision relay.
Proof. solve_decision. Defined.

(** The [Close] calls of a relay goroutine once its [io.Copy] returns. *)
Definition relay_closes (t : relay) : list endpoint :=
  match t with
  | ReadThread => [sock]
  | WriteThread => [sock]
  end.

(** One accepted connection: the [Close] calls of the loop body and the
    relay goroutines it starts, by dial result. *)
Definition accept_body (dial_ok : bool) : list endpoint * list relay :=
  if dial_ok then ([], [ReadThread; WriteThread]) else ([sock], []).

(** Every [Close] performed for one accepted connection once the relay
    goroutines in [finished] (in completion order) have ended. *)
Definition closed_by (dial_ok : bool) (finished : list relay)
  : list endpoint :=
  (accept_body dial_ok).1 ++
  flat_map relay_closes
    (filter (fun t => t ∈ (accept_body dial_ok).2) finished).

(** ** The supervisor *)

Inductive signal := SIGKILL.

Inductive event :=
| EvStart (argv : list string) (envv : list string) (setpgid : bool)
    (r : option Z)
| EvRecv
| EvKill (pid : Z) (sig : signal)
| EvWait (pid : Z)
| EvFatal (msg : string).

(** [mapper.env] *)
Definition env_of (h : list portForwarder) (p : nat) : string :=
  match h !! p with
  | Some f => env f
  | None => ""
  end.

(** [for _, mapper := range portMap { port := mapper.Cycle(); cmd.Env =
    append(cmd.Env, ...) }] over the entries in visiting order. *)
Fixpoint rangeCycle (l : list (Z * nat)) (envv : list string) (g : state)
  : list string * state :=
  match l with
  | [] => (envv, g)
  | (_, p) :: rest =>
      let '(port, g1) := Cycle p g in
      rangeCycle rest (envv ++ [Sprintf_env (env_of (heap g) p) port]) g1
  end.

(** Environment of the [i]-th spawn. *)
Definition spawn_env (w : world) (i : nat) (g : state)
  : list string * state :=
  rangeCycle (rangeOrder w i (portMap g)) (Environ w) g.

Inductive run_end := Blocked | Died.

(** [func runner(args []string, signal chan struct{})], run until it
    blocks on [<-signal] with no pulse left or ends in [log.Fatalln];
    [i] counts the spawns made so far.  [exec.Command(args[0],
    args[1:]...)] gives the command the argument vector [args]. *)
Fixpoint runner (w : world) (args : list string) (pulses : nat) (i : nat)
  (g : state) : list event * state * run_end :=
  let '(envv, g1) := spawn_env w i g in
  match Start w i with
  | None =>
      ([EvStart args envv true None;
        EvFatal "Error executing command:"], g1, Died)
  | Some pid =>
      match pulses with
      | O => ([EvStart args envv true (Some pid)], g1, Blocked)
      | S n =>
          let '(tr, g2, e) := runner w args n (S i) g1 in
          (EvStart args envv true (Some pid)
             :: EvRecv :: EvKill (- pid) SIGKILL :: EvWait pid :: tr, g2, e)
      end
  end.

(** The registry is well formed: its pointers are live and distinct. *)
Definition registry_ok (g : state) : Prop :=
  (forall k p, portMap g !! k = Some p -> is_Some (heap g !! p)) /\
  (forall k1 k2 p, portMap g !! k1 = Some p -> portMap g !! k2 = Some p ->
     k1 = k2).

(** The entry [NAME=localhost:PORT] of the forwarder at [p], with its
    current destination as PORT. *)
Definition entry_of (h : list portForwarder) (p : nat) : string :=
  match h !! p with
  | Some f => Sprintf_env (env f) (dest f)
  | None => ""
  end.

(** Environment of the [i]-th spawn ([i] from 0) in terms of the
    allocator alone: the entries carry the [m] results that follow the
    first [i * m] ones, [m] the number of registered forwarders. *)
Definition rotation_env (w : world) (g : state) (i : nat) : list string :=
  let m := size (portMap g) in
  Environ w ++
  zip_with (fun kp port => Sprintf_env (env_of (heap g) kp.2) port)
    (rangeOrder w i (portMap g))
    (nextPorts m (nextPorts (i * m) g).2).1.

(** What follows one pulse: kill of the group of [pid], reap of [pid],
    spawn of the next child. *)
Definition restart_events (args : list string) (pid : Z)
  (envv : list string) (pid' : Z) : list event :=
  [EvRecv; EvKill (- pid) SIGKILL; EvWait pid;
   EvStart args envv true (Some pid')].

(** Every forwarder allocated so far had its [Run] launched. *)
Definition all_launched (g : state) : Prop :=
  spawned g = seq 0 (length (heap g)).

(** The state [gi] the runner has before its [i]-th spawn, seen from
    the state [g] it started in. *)
Definition before_spawn (g : state) (i : nat) (gi : state) : Prop :=
  (portMin gi = portMin (nextPorts (i * size (portMap g)) g).2 /\
   portMax gi = portMax (nextPorts (i * size (portMap g)) g).2 /\
   portCycle gi = portCycle (nextPorts (i * size (portMap g)) g).2) /\
  portMap gi = portMap g /\
  (forall q, env_of (heap gi) q = env_of (heap g) q).

(** The registry is keyed by public port and knows the public port of
    every forwarder created. *)
Definition registry_keys (g : state) : Prop :=
  (forall k p, portMap g !! k = Some p ->
     exists fw, heap g !! p = Some fw /\ src fw = k) /\
  (forall p fw, heap g !! p = Some fw -> is_Some (portMap g !! src fw)).

(** Two states agree on what the allocator reads. *)
Definition alloc_eq (g g' : state) : Prop :=
  portMin g = portMin g' /\ portMax g = portMax g' /\
  portCycle g = portCycle g'.

(** The cursor is the initial one or one reached by calls from it. *)
Definition on_cycle (g : state) : Prop :=
  exists j, portCycle g = cursor_at g j.

(** ** The accept loop of a forwarder *)

(** [dest := atomic.LoadUint32(&p.dest); raddr :=
    fmt.Sprintf("localhost:%d", dest)] for the forwarder at [p]. *)
Definition raddr_of (h : list portForwarder) (p : nat) : string :=
  match h !! p with
  | Some f => "localhost:" +:+ pretty (dest f)
  | None => ""
  end.

(** What one turn of the loop sees: [l.Accept()] fails, or it yields a
    connection and [net.Dial] then succeeds or fails. *)
Inductive accepted :=
| AcceptErr
| AcceptOk (dial_ok : bool).

(** What the loop did for one accepted connection. *)
Record handled := Handled {
  dialed : string;
  closes : list endpoint;
  relays : list relay;
}.

(** The loop of [Run] after a successful bind, over what [Accept] and
    [Dial] yield turn by turn, until it blocks in [Accept] with nothing
    left or returns; [h i] is the heap at the [i]-th turn. *)
Fixpoint Run_loop (h : nat -> list portForwarder) (p : nat) (i : nat)
  (conns : list accepted) : list handled * run_status :=
  match conns with
  | [] => ([], Serving)
  | AcceptErr :: _ => ([], Returned)
  | AcceptOk ok :: rest =>
      let '(hs, st) := Run_loop h p (S i) rest in
      (Handled (raddr_of (h i) p) (accept_body ok).1 (accept_body ok).2
         :: hs, st)
  end.

(** ** The debouncer *)

(** What a receive or a [select] of [debouncer] yields: an event from
    [input], the tick of [timer.C], or, in the [select] with a
    [default], nothing ready. *)
Inductive obs := ObsInput | ObsTimer | ObsEmpty.

(** Where [debouncer] waits: at [<-input], in the [select] of
    [BounceLoop], in the [select] of [DrainLoop]. *)
Inductive dstate := Idle | Bounce | Drain.

Inductive dact := DReset | DOutput.

(** One wait of [debouncer]: the next waiting point and what is done on
    the way ([timer.Reset(delay)], [output <- struct{}{}]); [None] when
    the wait cannot yield this. *)
Definition debounce_step (s : dstate) (o : obs)
  : option (dstate * list dact) :=
  match s, o with
  | Idle, ObsInput => Some (Bounce, [DReset])
  | Bounce, ObsInput => Some (Bounce, [DReset])
  | Bounce, ObsTimer => Some (Drain, [DOutput])
  | Drain, ObsInput => Some (Drain, [])
  | Drain, ObsEmpty => Some (Idle, [])
  | _, _ => None
  end.

(** [func debouncer(delay, input, output)] from waiting point [s], over
    what its waits yield, as far as they can. *)
Fixpoint debouncer (s : dstate) (script : list obs) : list dact * dstate :=
  match script with
  | [] => ([], s)
  | o :: rest =>
      match debounce_step s o with
      | None => ([], s)
      | Some (s', acts) =>
          let '(tr, s'') := debouncer s' rest in (acts ++ tr, s'')
      end
  end.

(** ** The event loop of [main] *)

(** [matcher.MatchString] and [unmatcher.MatchString]. *)
Record filters := Filters {
  matcher : string -> bool;
  unmatcher : string -> bool;
}.

Inductive main_action :=
| WatcherAdd (path : string)
| WatcherRemove (path : string)
| SignalIn.

(** [Panics]: a nil dereference ends the program. *)
Inductive ending := Continues | Panics.

(** The closure [watch]; [info] is [None] for a nil [os.FileInfo], else
    [info.IsDir()].  [include || info.IsDir()] calls [IsDir] only when
    [include] is false. *)
Definition watch (fl : filters) (path : string) (info : option bool)
  : list main_action * ending :=
  let include := matcher fl path in
  let exclude := unmatcher fl path in
  match (if include then Some true else info) with
  | None => ([], Panics)
  | Some b =>
      (if b && negb exclude then [WatcherAdd path] else [], Continues)
  end.

(** The closure [signal]; its send on [signalin] waits while that
    channel is full. *)
Definition signal_in (fl : filters) (path : string) : list main_action :=
  if matcher fl path && negb (unmatcher fl path) then [SignalIn] else [].

(** [fsnotify.Create] and [fsnotify.Remove], bits of [fsnotify.Op]. *)
Definition fsnotify_Create : Z := 1.
Definition fsnotify_Remove : Z := 4.

Record fsevent := FsEvent {
  Name : string;
  Op : Z;
}.

(** The [case event := <-events] branch of the loop of [main]; [stat p]
    is [None] when [os.Stat(p)] fails, which leaves [info] nil. *)
Definition handle_event (fl : filters) (stat : string -> option bool)
  (ev : fsevent) : list main_action * ending :=
  let sig := signal_in fl (Name ev) in
  if Op ev =? fsnotify_Create then
    let '(acts, e) := watch fl (Name ev) (stat (Name ev)) in
    (sig ++ acts, e)
  else if Op ev =? fsnotify_Remove then
    (sig ++ [WatcherRemove (Name ev)], Continues)
  else (sig, Continues).

(** The loop of [main] over the events it receives, until none is left
    or it panics. *)
Fixpoint main_loop (fl : filters) (stat : string -> option bool)
  (evs : list fsevent) : list main_action * ending :=
  match evs with
  | [] => ([], Continues)
  | ev :: rest =>
      match handle_event fl stat ev with
      | (acts, Panics) => (acts, Panics)
      | (acts, Continues) =>
          let '(tr, e) := main_loop fl stat rest in (acts ++ tr, e)
      end
  end.

(** An event at which the loop of [main] panics. *)
Definition panicking (fl : filters) (stat : string -> option bool)
  (ev : fsevent) : bool :=
  (Op ev =? fsnotify_Create) && negb (matcher fl (Name ev)) &&
  match stat (Name ev) with
  | None => true
  | Some _ => false
  end.

(** ** The program up to the start of the supervisor *)

(** What start-up meets.  [Bind p s]: whether [net.Listen] succeeds on
    port [s] in the [Run] of the forwarder at [p].  [Matchers]: the
    results of [regexp.MustCompile(regex)] and
    [regexp.MustCompile(ignore)], [None] when one of them panics.
    [Walked]: the paths [filepath.Walk] passes to its callback, each
    with [info.IsDir()] or [None] for a nil [info].  [WalkErr]: whether
    [filepath.Walk] returns an error. *)
Record host := Host {
  Bind : nat -> Z -> bool;
  Matchers : option filters;
  Walked : list (string * option bool);
  WalkErr : bool;
}.

(** [Run] up to its loop, for the forwarder [fw] at [p]: [return err]
    when the bind fails. *)
Definition Run_listen (h : host) (p : nat) (fw : portForwarder)
  : run_status :=
  if Bind h p (src fw) then Serving else Returned.

(** [filepath.Walk(watchDir, ...)]: the callback calls [watch] and
    returns nil. *)
Fixpoint walk_all (fl : filters) (entries : list (string * option bool))
  : list main_action * ending :=
  match entries with
  | [] => ([], Continues)
  | (path, info) :: rest =>
      match watch fl path info with
      | (acts, Panics) => (acts, Panics)
      | (acts, Continues) =>
          let '(tr, e) := walk_all fl rest in (acts ++ tr, e)
      end
  end.

Inductive startup :=
| Aborted (msg : string)
| Panicked
| Started (g : state) (forwarders : list run_status).

(** [init], then [main] up to [go runner(...)]: the two
    [regexp.MustCompile], the walk, its error check.  The creation of
    the watcher cannot fail, it falls back to polling.  [Started] carries
    what became of the [Run] of each forwarder launched by [init]. *)
Definition start (h : host) (f : flags) : startup :=
  match init f with
  | Fatal msg _ => Aborted msg
  | Ok g =>
      match Matchers h with
      | None => Panicked
      | Some fl =>
          match walk_all fl (Walked h) with
          | (_, Panics) => Panicked
          | (_, Continues) =>
              if WalkErr h then Aborted "Could not walk directories:"
              else
                Started g
                  (omap (fun p => Run_listen h p <$> heap g !! p)
                     (spawned g))
          end
      end
  end.

(** ** The rotation, call by call *)

(** The values the [Cycle] calls of the loop over [portMap] return, in
    visiting order. *)
Fixpoint Cycle_results (l : list (Z * nat)) (g : state) : list Z :=
  match l with
  | [] => []
  | (_, p) :: rest =>
      let '(port, g1) := Cycle p g in port :: Cycle_results rest g1
  end.

(** The state in which the supervisor makes its [i]-th spawn, from the
    state [g] it is started in. *)
Fixpoint state_before (w : world) (g : state) (i : nat) : state :=
  match i with
  | O => g
  | S i' => (spawn_env w i' (state_before w g i')).2
  end.

(** Cursor value after [j] calls on any range of at most 2^16 values:
    the initial cursor for [j = 0]. *)
Definition cursor16 (g : state) (j : nat) : Z :=
  match j with
  | O => uint16 (uint16 (portMin g) - 1)
  | S i => uint16 (portMin g + Z.of_nat i mod range_size g)
  end.

(** ** Auxiliary notions *)

(** The forwarder [init] creates for a valid pair. *)
Definition pair_forwarder (s : string) : portForwarder :=
  match SplitN2 s ":"%char with
  | name :: port_s :: _ =>
      PortForwarder name (uint16 (default 0 (Atoi port_s))) 0
  | _ => PortForwarder "" 0 0
  end.

(** [p] is the last forwarder of [h] with public port [k]. *)
Definition last_with_src (h : list portForwarder) (k : Z) (p : nat) : Prop :=
  (exists fw, h !! p = Some fw /\ src fw = k) /\
  (forall q fw, h !! q = Some fw -> src fw = k -> (q <= p)%nat).

(** The turns of [Run_loop] before the first [Accept] error. *)
Fixpoint before_accept_err (conns : list accepted) : list accepted :=
  match conns with
  | AcceptOk ok :: rest => AcceptOk ok :: before_accept_err rest
  | _ => []
  end.

(** The trace of [k] spawns that succeed, each followed by a pulse,
    from spawn [i] on. *)
Definition spawn_restarts (w : world) (args : list string) (pid : nat -> Z)
  (g : state) (i k : nat) : list event :=
  flat_map (fun j => [EvStart args (rotation_env w g j) true (Some (pid j));
                      EvRecv; EvKill (- pid j) SIGKILL; EvWait (pid j)])
    (seq i k).

Definition is_signal (a : main_action) : bool :=
  match a with
  | SignalIn => true
  | _ => false
  end.

(** An event whose name passes [regex] and not [ignore]. *)
Definition triggers (fl : filters) (ev : fsevent) : bool :=
  matcher fl (Name ev) && negb (unmatcher fl (Name ev)).

(** A pair as one writes it in [-addr-env]: the name, [:], the port in
    decimal. *)
Definition render_pair (nz : string * Z) : string :=
  nz.1 +:+ ":" +:+ pretty nz.2.

(** * Proofs *)

Ltac alloc_eq_chain :=
  unfold alloc_eq in *;
  repeat match goal with H : _ /\ _ |- _ => destruct H end;
  repeat split; congruence.

Section Allocator.

Lemma nextPort_config g :
  portMin (nextPort g).2 = portMin g /\ portMax (nextPort g).2 = portMax g
  /\ heap (nextPort g).2 = heap g /\ portMap (nextPort g).2 = portMap g.
Proof. done. Qed.

Lemma nextPort_result g : (nextPort g).1 = portCycle (nextPort g).2.
Proof. done. Qed.

Lemma succ_mod (i k : Z) :
  0 <= i -> 0 < k ->
  (i + 1) mod k = if i mod k =? k - 1 then 0 else i mod k + 1.
Proof.
  intros Hi Hk.
  pose proof (Z.mod_pos_bound i k Hk) as Hb.
  pose proof (Z.div_mod i k ltac:(lia)) as Hd.
  destruct (Z.eqb_spec (i mod k) (k - 1)) as [E|E].
  - symmetry. apply (Z.mod_unique_pos _ _ (i / k + 1)); lia.
  - symmetry. apply (Z.mod_unique_pos _ _ (i / k)); lia.
Qed.

(** One call from the cursor of position [j] returns the value of
    position [j + 1] and leaves the cursor there. *)
Lemma nextPort_at g j :
  port_range g -> portCycle g = cursor_at g j ->
  (nextPort g).1 = cursor_at g (S j) /\
  portCycle (nextPort g).2 = cursor_at g (S j).
Proof.
  intros (Hmin & Hlt & Hmax) Hc.
  rewrite <- nextPort_result.
  enough ((nextPort g).1 = cursor_at g (S j)) by done.
  unfold nextPort, cursor_at, range_size, uint16 in *. simpl. rewrite Hc.
  destruct j as [|i].
  - rewrite Z.mod_0_l by lia. rewrite Z.add_0_r.
    rewrite (Z.mod_small (portMin g)) by lia.
    destruct (Z.eq_dec (portMin g) 0) as [E0|E0].
    + rewrite E0.
      replace (((0 - 1) mod 65536 + 1) mod 65536) with 0 by reflexivity.
      by destruct (0 =? portMax g mod 65536).
    + rewrite (Z.mod_small (portMin g - 1)) by lia.
      replace (portMin g - 1 + 1) with (portMin g) by lia.
      rewrite (Z.mod_small (portMin g)) by lia.
      destruct (Z.eqb_spec (portMin g) (portMax g mod 65536)); reflexivity.
  - set (k := portMax g - portMin g).
    assert (Hk : 0 < k) by (unfold k; lia).
    pose proof (Z.mod_pos_bound (Z.of_nat i) k Hk) as Hb.
    replace (Z.of_nat (S i)) with (Z.of_nat i + 1) by lia.
    rewrite (succ_mod (Z.of_nat i) k) by lia.
    destruct (Z.eqb_spec (Z.of_nat i mod k) (k - 1)) as [E|E].
    + rewrite E. replace (portMin g + (k - 1) + 1) with (portMax g)
        by (unfold k; lia).
      rewrite Z.eqb_refl, Z.mod_small; lia.
    + assert (Hs : portMin g + Z.of_nat i mod k + 1 < portMax g)
        by (unfold k in *; lia).
      rewrite (Z.mod_small (portMin g + Z.of_nat i mod k + 1)) by lia.
      destruct (Z.eqb_spec (portMin g + Z.of_nat i mod k + 1)
                  (portMax g mod 65536)) as [E'|E']; [|lia].
      exfalso.
      destruct (Z.eq_dec (portMax g) 65536) as [E6|E6].
      * rewrite E6 in E'. change (65536 mod 65536) with 0 in E'. lia.
      * rewrite (Z.mod_small (portMax g)) in E' by lia. unfold k in *. lia.
Qed.

Lemma cursor_at_config g g' j :
  portMin g' = portMin g -> portMax g' = portMax g ->
  cursor_at g' j = cursor_at g j.
Proof. unfold cursor_at, range_size. by intros -> ->. Qed.

Lemma port_range_config g g' :
  portMin g' = portMin g -> portMax g' = portMax g ->
  port_range g -> port_range g'.
Proof. unfold port_range. by intros -> ->. Qed.

(** [n] calls from position [j] return positions [j+1 .. j+n]. *)
Lemma nextPorts_at n : forall g j,
  port_range g -> portCycle g = cursor_at g j ->
  (nextPorts n g).1 = cursor_at g <$> seq (S j) n /\
  portCycle (nextPorts n g).2 = cursor_at g (n + j) /\
  portMin (nextPorts n g).2 = portMin g /\
  portMax (nextPorts n g).2 = portMax g.
Proof.
  induction n as [|n IH]; intros g j Hr Hc; [done|].
  destruct (nextPort_at g j Hr Hc) as [Hp Hc'].
  destruct (nextPort_config g) as (Hmn & Hmx & _).
  cbn [nextPorts].
  destruct (nextPort g) as [p g1] eqn:E1. cbn [fst snd] in *.
  assert (Hr1 : port_range g1) by by apply (port_range_config g).
  rewrite <- (cursor_at_config g g1 (S j) Hmn Hmx) in Hc'.
  destruct (IH g1 (S j) Hr1 Hc') as (Hl & Hcur & Hmn' & Hmx').
  destruct (nextPorts n g1) as [ps g2]. cbn [fst snd] in *.
  rewrite Hl, Hp, Hcur, Hmn', Hmx'.
  replace (n + S j)%nat with (S (n + j)) by lia.
  rewrite !(cursor_at_config g g1) by done.
  repeat split; try done.
  cbn [seq fmap list_fmap]. f_equal.
  apply list_fmap_ext. intros. by apply cursor_at_config.
Qed.

Lemma cursor_at_bounds g i :
  port_range g -> portMin g <= cursor_at g (S i) < portMax g.
Proof.
  intros (Hmin & Hlt & Hmax). unfold cursor_at, range_size.
  pose proof (Z.mod_pos_bound (Z.of_nat i) (portMax g - portMin g)). lia.
Qed.

Lemma cursor_at_inj g i1 i2 :
  port_range g ->
  (Z.of_nat i1 <= Z.of_nat i2 < Z.of_nat i1 + range_size g) ->
  cursor_at g (S i1) = cursor_at g (S i2) -> i1 = i2.
Proof.
  intros (Hmin & Hlt & Hmax) Hb. unfold cursor_at, range_size in *.
  set (k := portMax g - portMin g) in *. intros E.
  assert (Hk : 0 < k) by (unfold k; lia).
  pose proof (Z.div_mod (Z.of_nat i1) k ltac:(lia)).
  pose proof (Z.div_mod (Z.of_nat i2) k ltac:(lia)).
  pose proof (Z.mod_pos_bound (Z.of_nat i1) k Hk).
  assert (Em : Z.of_nat i1 mod k = Z.of_nat i2 mod k) by lia.
  assert (Z.of_nat i2 / k = Z.of_nat i1 / k) by nia.
  nia.
Qed.

Lemma cursor_at_small g i :
  port_range g -> Z.of_nat i < range_size g ->
  cursor_at g (S i) = portMin g + Z.of_nat i.
Proof.
  intros (Hmin & Hlt & Hmax) Hi. unfold cursor_at.
  rewrite Z.mod_small; lia.
Qed.

(** A cursor inside the range is the cursor of some position. *)
Lemma in_range_position g :
  port_range g -> portMin g <= portCycle g < portMax g ->
  portCycle g = cursor_at g (S (Z.to_nat (portCycle g - portMin g))).
Proof.
  intros Hr Hc. rewrite cursor_at_small; [|done|]; unfold range_size; lia.
Qed.

Lemma nextPort_in_range g :
  port_range g -> portMin g <= portCycle g < portMax g ->
  (nextPort g).1 =
    if portCycle g + 1 =? portMax g then portMin g else portCycle g + 1.
Proof.
  intros Hr Hc.
  destruct (nextPort_at g _ Hr (in_range_position g Hr Hc)) as [-> _].
  destruct Hr as (Hmin & Hlt & Hmax).
  unfold cursor_at, range_size.
  set (k := portMax g - portMin g).
  replace (Z.of_nat (S (Z.to_nat (portCycle g - portMin g))))
    with ((portCycle g - portMin g) + 1) by lia.
  rewrite succ_mod by (unfold k; lia).
  rewrite (Z.mod_small (portCycle g - portMin g)) by (unfold k; lia).
  destruct (Z.eqb_spec (portCycle g - portMin g) (k - 1));
    destruct (Z.eqb_spec (portCycle g + 1) (portMax g));
    unfold k in *; lia.
Qed.

Lemma nextPort_uint16 g : 0 <= (nextPort g).1 < 65536.
Proof.
  unfold nextPort, uint16. cbn [fst].
  destruct (_ =? _); by apply Z.mod_pos_bound.
Qed.

Lemma nextPort_alloc_eq g g' :
  alloc_eq g g' ->
  (nextPort g).1 = (nextPort g').1 /\
  alloc_eq (nextPort g).2 (nextPort g').2.
Proof.
  intros (Hmn & Hmx & Hc). unfold alloc_eq, nextPort. cbn.
  by rewrite Hmn, Hmx, Hc.
Qed.

Lemma nextPorts_alloc_eq n : forall g g',
  alloc_eq g g' ->
  (nextPorts n g).1 = (nextPorts n g').1 /\
  alloc_eq (nextPorts n g).2 (nextPorts n g').2.
Proof.
  induction n as [|n IH]; intros g g' He; [done|].
  destruct (nextPort_alloc_eq g g' He) as [Hp He1].
  cbn [nextPorts].
  destruct (nextPort g) as [p g1], (nextPort g') as [p' g1'].
  cbn [fst snd] in *. destruct (IH g1 g1' He1) as [Hl He2].
  destruct (nextPorts n g1) as [ps g2], (nextPorts n g1') as [ps' g2'].
  cbn [fst snd] in *. by subst.
Qed.

Lemma nextPorts_S n g :
  (nextPorts (S n) g).1 = (nextPort g).1 :: (nextPorts n (nextPort g).2).1
  /\ (nextPorts (S n) g).2 = (nextPorts n (nextPort g).2).2.
Proof.
  cbn [nextPorts]. destruct (nextPort g) as [p g1]. cbn [fst snd].
  by destruct (nextPorts n g1).
Qed.

Lemma nextPorts_length n : forall g, length (nextPorts n g).1 = n.
Proof.
  induction n as [|n IH]; intros g; [done|].
  destruct (nextPorts_S n g) as [-> _]. cbn. by rewrite IH.
Qed.

Lemma nextPorts_app m n g :
  (nextPorts (m + n) g).1
    = (nextPorts m g).1 ++ (nextPorts n (nextPorts m g).2).1
  /\ (nextPorts (m + n) g).2 = (nextPorts n (nextPorts m g).2).2.
Proof.
  revert g. induction m as [|m IH]; intros g; [done|].
  replace (S m + n)%nat with (S (m + n)) by lia.
  destruct (nextPorts_S (m + n) g) as [-> ->].
  destruct (nextPorts_S m g) as [-> ->].
  destruct (IH (nextPort g).2) as [-> ->]. done.
Qed.

Lemma nextPorts_uint16 n g p :
  p ∈ (nextPorts n g).1 -> 0 <= p < 65536.
Proof.
  revert g. induction n as [|n IH]; intros g.
  - by intros ?%elem_of_nil.
  - destruct (nextPorts_S n g) as [-> _].
    intros [->|Hin]%elem_of_cons; [apply nextPort_uint16|by eapply IH].
Qed.

Lemma on_cycle_nextPorts n g :
  port_range g -> on_cycle g -> on_cycle (nextPorts n g).2.
Proof.
  intros Hr [j Hj].
  destruct (nextPorts_at n g j Hr Hj) as (_ & Hc & Hmn & Hmx).
  exists (n + j)%nat. by rewrite (cursor_at_config g).
Qed.

(** From a cursor on the cycle, up to K successive results differ. *)
Lemma nextPorts_NoDup n g :
  port_range g -> on_cycle g -> Z.of_nat n <= range_size g ->
  NoDup (nextPorts n g).1.
Proof.
  intros Hr [j Hj] Hn.
  destruct (nextPorts_at n g j Hr Hj) as (-> & _).
  rewrite <- fmap_S_seq, <- list_fmap_compose.
  apply NoDup_fmap_2_strong; [|apply NoDup_seq].
  intros x y [Hx1 Hx2]%elem_of_seq [Hy1 Hy2]%elem_of_seq E.
  unfold compose in E.
  destruct (decide (x <= y)%nat).
  - apply (cursor_at_inj g); [done|lia|done].
  - symmetry. apply (cursor_at_inj g); [done|lia|done].
Qed.

End Allocator.

(** ** Claims on the allocator *)

(** C1, as the claim states it, fails: the flags are unvalidated
    integers and the cursor is a [uint16], so for the range
    [[70000, 70003)] the four calls return 4464, 4465, 4466, 4464. *)
Lemma wraparound_fails_beyond_uint16 :
  match init (Flags "APP_ADDR:8080" 70000 70003 ["server"%string]) with
  | Ok g =>
      range_size g = 3 /\
      (nextPorts 4 g).1 = [4464; 4465; 4466; 4464] /\
      (nextPorts 4 g).1 <> seqZ (portMin g) (range_size g) ++ [portMin g]
  | Fatal _ _ => False
  end.
Proof. by vm_compute. Qed.

(** C1, amended.  For a range of ports [[min, max)], [0 <= min < max <=
    65536], of size K, K+1 successive
    calls of [nextPort] from the initial cursor return
    [min, min+1, ..., max-1, min]; with port-min 50000, port-max 50003 and
    one forwarder on 8080 the results after [init] are
    50000, 50001, 50002, 50000, 50001. *)
Theorem nextPort_wraparound (g : state) :
  port_range g ->
  portCycle g = uint16 (uint16 (portMin g) - 1) ->
  (nextPorts (S (Z.to_nat (range_size g))) g).1
    = seqZ (portMin g) (range_size g) ++ [portMin g]
  /\ match init (Flags "APP_ADDR:8080" 50000 50003 ["server"%string]) with
     | Ok g1 => (nextPorts 5 g1).1 = [50000; 50001; 50002; 50000; 50001]
     | Fatal _ _ => False
     end.
Proof.
  intros Hr Hc. split; [|by vm_compute].
  destruct (nextPorts_at (S (Z.to_nat (range_size g))) g 0 Hr Hc) as [-> _].
  pose proof Hr as (Hmin & Hlt & Hmax).
  rewrite seq_S, fmap_app. f_equal.
  - unfold seqZ. rewrite <- fmap_S_seq, <- list_fmap_compose.
    apply list_fmap_ext. intros i x [-> Hi]%lookup_seq.
    unfold compose. rewrite cursor_at_small; [lia|done|lia].
  - simpl. unfold range_size. rewrite Z2Nat.id by lia.
    rewrite Z.mod_same by lia. f_equal. lia.
Qed.

Lemma nextPort_wraparound_witness :
  (nextPorts 4
     (init_portCycle
        (state0 (Flags "APP_ADDR:8080" 50000 50003 ["server"%string])))).1
  = [50000; 50001; 50002; 50000].
Proof.
  refine (proj1 (nextPort_wraparound
    (init_portCycle
       (state0 (Flags "APP_ADDR:8080" 50000 50003 ["server"%string])))
    _ _)).
  - unfold port_range. simpl. lia.
  - reflexivity.
Defined.

(** C8, as the claim states it, fails: right after [init] the cursor is
    [min - 1], outside [[min, max)]. *)
Lemma initial_cursor_outside_range :
  match init (Flags "APP_ADDR:8080" 50000 50003 ["server"%string]) with
  | Ok g => port_range g /\ portCycle g = 49999 /\
            ~ (portMin g <= portCycle g < portMax g)
  | Fatal _ _ => False
  end.
Proof. vm_compute. repeat split; try discriminate. intros [H _]. by apply H. Qed.

(** C8, amended.  For a range of ports, from the initial cursor
    [uint16(min) - 1] the cursor lies in [[min, max)] after every call of
    [nextPort]; a call returns the new cursor, which from the initial
    cursor is [min] and from a cursor in the range is the cursor plus
    one, or [min] when that reaches [max]. *)
Theorem cursor_in_range_after_call (g : state) (n : nat) :
  port_range g ->
  portCycle g = uint16 (uint16 (portMin g) - 1) ->
  let g' := (nextPorts (S n) g).2 in
  portMin g' = portMin g /\ portMax g' = portMax g /\
  portMin g <= portCycle g' < portMax g /\
  (nextPort g).1 = portMin g /\
  (nextPort g').1 = portCycle (nextPort g').2 /\
  portCycle (nextPort g').2 =
    if portCycle g' + 1 =? portMax g then portMin g else portCycle g' + 1.
Proof.
  intros Hr Hc g'.
  destruct (nextPorts_at (S n) g 0 Hr Hc) as (_ & Hcur & Hmn & Hmx).
  fold g' in Hcur, Hmn, Hmx.
  assert (Hin : portMin g <= portCycle g' < portMax g).
  { rewrite Hcur. replace (S n + 0)%nat with (S n) by lia.
    by apply cursor_at_bounds. }
  repeat split; try done; try lia.
  - destruct (nextPort_at g 0 Hr Hc) as [-> _].
    rewrite cursor_at_small; [lia|done|].
    unfold range_size. destruct Hr as (? & ? & ?). lia.
  - rewrite <- nextPort_result, nextPort_in_range.
    + by rewrite Hmn, Hmx.
    + by apply (port_range_config g).
    + by rewrite Hmn, Hmx.
Qed.

Lemma cursor_in_range_after_call_witness :
  50000 <=
    portCycle
      (nextPorts 3
         (init_portCycle
            (state0 (Flags "APP_ADDR:8080" 50000 50003 ["server"%string])))).2
  < 50003.
Proof.
  refine (proj1 (proj2 (proj2 (cursor_in_range_after_call
    (init_portCycle
       (state0 (Flags "APP_ADDR:8080" 50000 50003 ["server"%string])))
    2 _ _)))).
  - unfold port_range. simpl. lia.
  - reflexivity.
Defined.

(** ** The rotation loop of the supervisor *)

Section Rotation.

Lemma Cycle_spec p g :
  (Cycle p g).1 = (nextPort g).1 /\
  alloc_eq (Cycle p g).2 (nextPort g).2 /\
  portMap (Cycle p g).2 = portMap g /\
  spawned (Cycle p g).2 = spawned g /\
  heap (Cycle p g).2 = alter (set_dest (uint32 (nextPort g).1)) p (heap g).
Proof. done. Qed.

Lemma env_of_alter d p h q : env_of (alter (set_dest d) p h) q = env_of h q.
Proof.
  unfold env_of. destruct (decide (p = q)) as [->|Hne].
  - rewrite list_lookup_alter_eq. by destruct (h !! q).
  - by rewrite list_lookup_alter_ne.
Qed.

(** The entries appended by the loop, by visiting order, and what the
    loop leaves of the state. *)
Lemma rangeCycle_spec l : forall envv g,
  (rangeCycle l envv g).1
    = envv ++ zip_with (fun kp port => Sprintf_env (env_of (heap g) kp.2) port)
                l (nextPorts (length l) g).1 /\
  alloc_eq (rangeCycle l envv g).2 (nextPorts (length l) g).2 /\
  portMap (rangeCycle l envv g).2 = portMap g /\
  spawned (rangeCycle l envv g).2 = spawned g /\
  (forall q, env_of (heap (rangeCycle l envv g).2) q = env_of (heap g) q) /\
  length (heap (rangeCycle l envv g).2) = length (heap g).
Proof.
  induction l as [|[k p] l IH]; intros envv g.
  - cbn. by rewrite app_nil_r.
  - cbn [rangeCycle length].
    destruct (Cycle_spec p g) as (Hp & He & Hm & Hs & Hh).
    destruct (Cycle p g) as [port g1]. cbn [fst snd] in *.
    destruct (IH (envv ++ [Sprintf_env (env_of (heap g) p) port]) g1)
      as (-> & He' & -> & -> & Henv & ->).
    destruct (nextPorts_S (length l) g) as [-> ->].
    destruct (nextPorts_alloc_eq (length l) _ _ He) as [Hl He2].
    rewrite Hl, Hm, Hs, Hh, length_alter, <- Hp, <- app_assoc.
    cbn [zip_with app fst snd].
    repeat split; try done.
    + do 2 f_equal. apply zip_with_ext; [|done..].
      intros [k' q] port'. cbn. by rewrite env_of_alter.
    + clear -He' He2. alloc_eq_chain.
    + clear -He' He2. alloc_eq_chain.
    + clear -He' He2. alloc_eq_chain.
    + intros q. by rewrite Henv, Hh, env_of_alter.
Qed.

(** Forwarders the loop does not visit keep their destination. *)
Lemma rangeCycle_heap_other l : forall envv g p,
  p ∉ l.*2 -> heap (rangeCycle l envv g).2 !! p = heap g !! p.
Proof.
  induction l as [|[k p0] l IH]; intros envv g p Hp; [done|].
  cbn [rangeCycle]. destruct (Cycle_spec p0 g) as (_ & _ & _ & _ & Hh).
  destruct (Cycle p0 g) as [port g1]. cbn [fst snd] in *.
  apply not_elem_of_cons in Hp as [Hne Hp].
  rewrite IH, Hh by done. by apply list_lookup_alter_ne.
Qed.

(** A visited forwarder ends with the port its [Cycle] returned. *)
Lemma rangeCycle_heap_dest l : forall envv g j k p port,
  NoDup l.*2 ->
  l !! j = Some (k, p) ->
  (nextPorts (length l) g).1 !! j = Some port ->
  heap (rangeCycle l envv g).2 !! p = set_dest port <$> heap g !! p.
Proof.
  induction l as [|[k0 p0] l IH]; intros envv g j k p port Hnd Hj Hport;
    [done|].
  cbn [rangeCycle]. destruct (Cycle_spec p0 g) as (Hp & He & _ & _ & Hh).
  destruct (Cycle p0 g) as [port0 g1]. cbn [fst snd length] in *.
  destruct (nextPorts_S (length l) g) as [Hl _]. rewrite Hl in Hport.
  apply NoDup_cons in Hnd as [Hp0 Hnd].
  destruct j as [|j]; cbn in Hj, Hport.
  - injection Hj as -> ->. injection Hport as <-.
    rewrite rangeCycle_heap_other, Hh, list_lookup_alter_eq by done.
    destruct (heap g !! p); [|done]. cbn. do 2 f_equal.
    unfold uint32. apply Z.mod_small.
    pose proof (nextPort_uint16 g).
    change (0 <= (nextPort g).1 < 4294967296). lia.
  - destruct (nextPorts_alloc_eq (length l) _ _ He) as [Hl' _].
    rewrite <- Hl' in Hport.
    rewrite (IH _ g1 j k p port Hnd Hj Hport), Hh.
    rewrite list_lookup_alter_ne; [done|].
    intros ->. apply Hp0. apply list_elem_of_fmap.
    exists (k, p). split; [done|]. by eapply list_elem_of_lookup_2.
Qed.

End Rotation.

(** ** Start-up parsing *)

Section Startup.

Lemma register_spec name k g :
  alloc_eq (register name k g) g /\
  heap (register name k g) = heap g ++ [PortForwarder name k 0] /\
  spawned (register name k g) = spawned g ++ [length (heap g)] /\
  portMap (register name k g) = <[k := length (heap g)]> (portMap g).
Proof. done. Qed.

Lemma register_inv name k g :
  registry_ok g -> all_launched g ->
  registry_ok (register name k g) /\ all_launched (register name k g).
Proof.
  intros [Hlive Hinj] Hl.
  destruct (register_spec name k g) as (_ & Hh & Hs & Hm).
  unfold registry_ok, all_launched. rewrite Hh, Hs, Hm, Hl.
  rewrite length_app. cbn [length].
  replace (length (heap g) + 1)%nat with (S (length (heap g))) by lia.
  rewrite seq_S. split; [|done]. split.
  - intros k' p. rewrite lookup_insert. case_decide.
    + intros [= <-]. apply lookup_lt_is_Some. rewrite length_app. cbn. lia.
    + intros [x Hx]%Hlive. exists x. by apply lookup_app_l_Some.
  - intros k1 k2 p. rewrite !lookup_insert.
    repeat case_decide; try congruence.
    + intros [= <-] [? ?%lookup_lt_Some]%Hlive. lia.
    + intros [? ?%lookup_lt_Some]%Hlive [= <-]. lia.
    + apply Hinj.
Qed.

Lemma init_pairs_step s l g :
  init_pairs (s :: l) g =
    if valid_pair s
    then match SplitN2 s ":" , Atoi (default "" (SplitN2 s ":" !! 1%nat)) with
         | name :: _, Some port => init_pairs l (register name (uint16 port) g)
         | _, _ => Ok g
         end
    else Fatal (if (length (SplitN2 s ":") =? 2)%nat
                then "Syntax error: addr-env pair port invalid."
                else "Syntax error: addr-env pair missing port.") g.
Proof.
  cbn [init_pairs]. unfold valid_pair.
  destruct (SplitN2 s ":") as [|name [|port_s [|? ?]]]; try done.
  cbn. by destruct (Atoi port_s).
Qed.

(** The loop keeps the allocator's variables and the registry
    invariants, whatever its outcome. *)
Lemma init_pairs_inv l : forall g,
  registry_ok g -> all_launched g ->
  alloc_eq (outcome_state (init_pairs l g)) g /\
  registry_ok (outcome_state (init_pairs l g)) /\
  all_launched (outcome_state (init_pairs l g)).
Proof.
  induction l as [|s l IH]; intros g Hok Hl; [done|].
  rewrite init_pairs_step. destruct (valid_pair s); [|done].
  destruct (SplitN2 s ":") as [|name ?]; [done|].
  destruct (Atoi _) as [port|]; [|done].
  destruct (register_inv name (uint16 port) g Hok Hl) as [Hok' Hl'].
  destruct (IH _ Hok' Hl') as ((? & ? & ?) & ? & ?).
  destruct (register_spec name (uint16 port) g) as ((? & ? & ?) & _).
  split; [|done]. unfold alloc_eq. repeat split; congruence.
Qed.

(** The loop ends in [log.Fatalln] exactly when some element is not a
    valid pair; the forwarders launched by then are those of the
    elements before the first such element. *)
Lemma init_pairs_fatal l : forall g,
  (exists s, s ∈ l /\ valid_pair s = false) ->
  exists msg g' n bad,
    init_pairs l g = Fatal msg g' /\ syntax_error msg /\
    l !! n = Some bad /\ valid_pair bad = false /\
    Forall (fun s => valid_pair s = true) (take n l) /\
    length (heap g') = (length (heap g) + n)%nat /\
    spawned g' = spawned g ++ seq (length (heap g)) n /\
    (contains ":" bad = false ->
     msg = "Syntax error: addr-env pair missing port.").
Proof.
  induction l as [|s l IH]; intros g (s0 & Hin & Hbad).
  { by apply elem_of_nil in Hin. }
  rewrite init_pairs_step. destruct (valid_pair s) eqn:Hs.
  - destruct (SplitN2 s ":") as [|name ?] eqn:Hsplit.
    { unfold valid_pair in Hs. by rewrite Hsplit in Hs. }
    destruct (Atoi _) as [port|] eqn:Hatoi.
    2:{ unfold valid_pair in Hs. rewrite Hsplit in Hs.
        destruct l0 as [|? [|? ?]]; try done. cbn in Hatoi.
        by rewrite Hatoi in Hs. }
    apply elem_of_cons in Hin as [->|Hin]; [congruence|].
    destruct (IH (register name (uint16 port) g))
      as (msg & g' & n & bad & -> & Hmsg & Hn & Hb & Hall & Hh & Hsp & Hc).
    { by exists s0. }
    destruct (register_spec name (uint16 port) g) as (_ & Hh1 & Hs1 & _).
    exists msg, g', (S n), bad. repeat split; try done.
    + cbn. by constructor.
    + rewrite Hh, Hh1, length_app. cbn. lia.
    + rewrite Hsp, Hs1, Hh1, length_app, <- app_assoc. cbn.
      by replace (length (heap g) + 1)%nat with (S (length (heap g)))
        by lia.
  - eexists _, g, 0%nat, s.
    split; [done|]. split; [destruct (_ =? _)%nat; [by right|by left]|].
    split; [done|]. split; [done|]. split; [cbn; constructor|].
    split; [lia|]. split; [cbn; by rewrite app_nil_r|].
    intros Hc. clear -Hc.
    enough (length (SplitN2 s ":") = 1%nat) as -> by done.
    induction s as [|a r IHr]; [done|]. cbn in *.
    apply orb_false_elim in Hc as [-> Hc].
    specialize (IHr Hc). by destruct (SplitN2 r ":").
Qed.

Lemma init_pairs_ok l : forall g,
  Forall (fun s => valid_pair s = true) l ->
  exists g', init_pairs l g = Ok g'.
Proof.
  induction l as [|s l IH]; intros g Hall; [by exists g|].
  apply Forall_cons in Hall as [Hs Hall].
  rewrite init_pairs_step, Hs.
  destruct (SplitN2 s ":") as [|name l0] eqn:Hsplit.
  { unfold valid_pair in Hs. by rewrite Hsplit in Hs. }
  destruct (Atoi _) as [port|] eqn:Hatoi; [by apply IH|].
  unfold valid_pair in Hs. rewrite Hsplit in Hs.
  destruct l0 as [|? [|? ?]]; try done. cbn in Hatoi.
  by rewrite Hatoi in Hs.
Qed.

Lemma state0_inv f :
  registry_ok (init_portCycle (state0 f)) /\
  all_launched (init_portCycle (state0 f)).
Proof. split; [split|done]; intros *; cbn; by rewrite lookup_empty. Qed.

(** What [init] establishes when it returns. *)
Lemma init_inv f :
  let g := outcome_state (init f) in
  portMin g = flag_portMin f /\ portMax g = flag_portMax f /\
  registry_ok g /\ all_launched g /\
  (Args f <> [] -> portCycle g = cursor_at g 0).
Proof.
  cbv zeta. unfold init.
  destruct (Args f) as [|a args]; cbn [length Nat.ltb Nat.leb].
  - repeat split; try done; intros *; cbn; by rewrite lookup_empty.
  - destruct (state0_inv f) as [Hok Hl].
    pose proof (init_pairs_inv (Split (addrEnvs f) ",") _ Hok Hl) as Hinv.
    destruct Hinv as (Heq & ? & ?). destruct Heq as (Hmn & Hmx & Hc).
    do 4 (split; [done|]).
    intros _. unfold cursor_at. by rewrite Hc, Hmn.
Qed.

Lemma register_keys name k g :
  registry_keys g -> registry_keys (register name k g).
Proof.
  intros [Hk Hh]. destruct (register_spec name k g) as (_ & Eh & _ & Em).
  unfold registry_keys. rewrite Eh, Em. split.
  - intros k' p. rewrite lookup_insert. case_decide as Hd.
    + intros [= <-]. exists (PortForwarder name k 0).
      split; [|done]. by apply list_lookup_middle.
    + intros (fw & Hfw & Hs)%Hk. exists fw.
      split; [by apply lookup_app_l_Some|done].
  - intros p fw [Hfw|[_ Hfw]]%lookup_app_Some.
    + rewrite lookup_insert. case_decide; [done|by eapply Hh].
    + apply list_lookup_singleton_Some in Hfw as [_ <-]. cbn.
      by rewrite lookup_insert_eq.
Qed.

Lemma init_pairs_keys l : forall g,
  registry_keys g -> registry_keys (outcome_state (init_pairs l g)).
Proof.
  induction l as [|s l IH]; intros g Hk; [done|].
  rewrite init_pairs_step. destruct (valid_pair s); [|done].
  destruct (SplitN2 s ":") as [|name ?]; [done|].
  destruct (Atoi _) as [port|]; [|done].
  by apply IH, register_keys.
Qed.

(** When the public ports of the pairs differ (as 16-bit values), the
    registry holds every forwarder [init] created, under its port. *)
Lemma init_registry_complete f p fw :
  NoDup (src <$> heap (outcome_state (init f))) ->
  heap (outcome_state (init f)) !! p = Some fw ->
  portMap (outcome_state (init f)) !! src fw = Some p.
Proof.
  intros Hnd Hfw.
  assert (Hk : registry_keys (outcome_state (init f))).
  { unfold init. destruct (_ <? _)%nat.
    - split; intros *; cbn; [by rewrite lookup_empty|done].
    - apply init_pairs_keys.
      split; intros *; cbn; [by rewrite lookup_empty|done]. }
  destruct Hk as [Hk Hh].
  destruct (Hh p fw Hfw) as [p' Hp'].
  destruct (Hk _ _ Hp') as (fw' & Hfw' & Hs).
  rewrite Hp'. f_equal.
  apply (NoDup_lookup _ _ _ (src fw) Hnd); rewrite list_lookup_fmap.
  - rewrite Hfw'. cbn. by rewrite Hs.
  - by rewrite Hfw.
Qed.

End Startup.

(** ** Claims on start-up *)

Section StartupClaims.

Lemma init_fatal_iff f :
  (exists msg g, init f = Fatal msg g) <->
  (Args f = [] \/
   exists s, s ∈ Split (addrEnvs f) "," /\ valid_pair s = false).
Proof.
  unfold init. destruct (Args f) as [|a args]; cbn [length Nat.ltb Nat.leb].
  { split; [by left|by eauto]. }
  split.
  - intros (msg & g & Hf). right.
    destruct (decide (Forall (fun s => valid_pair s = true)
                        (Split (addrEnvs f) ","))) as [Hall|Hex].
    + destruct (init_pairs_ok _ (init_portCycle (state0 f)) Hall).
      congruence.
    + apply not_Forall_Exists in Hex; [|apply _].
      apply Exists_exists in Hex as (s & Hin & Hs).
      exists s. split; [done|]. by apply not_true_is_false.
  - intros [?|Hex]; [done|].
    destruct (init_pairs_fatal _ (init_portCycle (state0 f)) Hex)
      as (msg & g & _ & _ & -> & _). eauto.
Qed.


End StartupClaims.

(** C7, as the claim states it, fails: [init] accepts an empty range, and
    the allocator is then called with it and leaves [port-max] behind. *)
Lemma empty_range_accepted :
  match init (Flags "APP_ADDR:8080" 50000 50000 ["server"%string]) with
  | Ok g => portMax g <= portMin g /\
            (nextPorts 3 g).1 = [50000; 50001; 50002]
  | Fatal _ _ => False
  end.
Proof. vm_compute. split; [by intros ?|reflexivity]. Qed.

(** C7, amended.  [init] does not validate the range: once
    [flag.Parse()] has returned, it ends in [log.Fatalln] exactly when
    no command is given or an element of [-addr-env] is not a valid
    pair, for every value of [port-min] and [port-max]; when it returns
    it has kept both as given, empty range or not, and has read
    [port-min] only to set the cursor to [uint16(port-min) - 1].
    [nextPort] has no error result on any range, it always returns a
    16-bit value. *)
Theorem init_does_not_validate_range (f : flags) :
  ((exists msg g, init f = Fatal msg g) <->
   (Args f = [] \/
    exists s, s ∈ Split (addrEnvs f) "," /\ valid_pair s = false)) /\
  (forall mn mx,
     (exists msg g, init (Flags (addrEnvs f) mn mx (Args f)) = Fatal msg g)
     <-> (exists msg g, init f = Fatal msg g)) /\
  (forall g, init f = Ok g ->
     portMin g = flag_portMin f /\ portMax g = flag_portMax f /\
     portCycle g = uint16 (uint16 (flag_portMin f) - 1)) /\
  (forall g, 0 <= (nextPort g).1 < 65536).
Proof.
  split; [apply init_fatal_iff|]. split; [|split; [|apply nextPort_uint16]].
  - intros mn mx. by rewrite !init_fatal_iff.
  - intros g Hok. pose proof (init_inv f) as (Hmn & Hmx & _ & _ & Hc).
    rewrite Hok in Hmn, Hmx, Hc. cbn in Hmn, Hmx, Hc.
    split; [done|]. split; [done|].
    rewrite Hc, Hmn; [done|]. unfold init in Hok. by destruct (Args f).
Qed.

(** C10, as the claim states it, fails: with [-addr-env=A:8080,B] the
    forwarder of [A] is created and its [Run] launched before [init]
    reaches the malformed element. *)
Lemma forwarder_launched_before_syntax_error :
  exists g,
    init (Flags "A:8080,B" 50000 60000 ["server"%string])
      = Fatal "Syntax error: addr-env pair missing port." g /\
    heap g = [PortForwarder "A" 8080 0] /\ spawned g = [0%nat].
Proof. eexists. by vm_compute. Qed.

(** C10, amended.  Given a command, the default empty [-addr-env] makes
    [init] end in the fatal syntax error "missing port" with no
    forwarder created; an element without [:] is not a valid pair; and
    whenever some element is not a valid pair, [init] ends in a fatal
    syntax error at the first such element (the "missing port" one when
    it has no [:]), the forwarders created and launched by then being
    exactly those of the elements before it, and the program is aborted
    before the supervisor starts. *)
Theorem init_rejects_malformed_pair (f : flags) :
  Args f <> [] ->
  (addrEnvs f = "" ->
   init f = Fatal "Syntax error: addr-env pair missing port."
              (init_portCycle (state0 f))) /\
  (forall s, contains ":" s = false -> valid_pair s = false) /\
  ((exists s, s ∈ Split (addrEnvs f) "," /\ valid_pair s = false) ->
   exists msg g n bad,
     init f = Fatal msg g /\ syntax_error msg /\
     Split (addrEnvs f) "," !! n = Some bad /\ valid_pair bad = false /\
     Forall (fun s => valid_pair s = true) (take n (Split (addrEnvs f) ",")) /\
     length (heap g) = n /\ spawned g = seq 0 n /\
     (contains ":" bad = false ->
      msg = "Syntax error: addr-env pair missing port.") /\
     forall w, start w f = Aborted msg).
Proof.
  intros Hargs. unfold start, init.
  destruct (Args f) as [|a args]; [done|]. cbn [length Nat.ltb Nat.leb].
  split; [by intros ->|]. split.
  - intros s Hc. unfold valid_pair.
    enough (length (SplitN2 s ":") = 1%nat) by
      by destruct (SplitN2 s ":") as [|? [|? [|? ?]]].
    induction s as [|c r IHr]; [done|]. cbn in *.
    apply orb_false_elim in Hc as [-> Hc].
    specialize (IHr Hc). by destruct (SplitN2 r ":").
  - intros Hex.
    destruct (init_pairs_fatal _ (init_portCycle (state0 f)) Hex)
      as (msg & g & n & bad & -> & ? & ? & ? & ? & ? & ? & ?).
    by exists msg, g, n, bad.
Qed.

Lemma init_rejects_malformed_pair_witness :
  init (Flags "" 50000 60000 ["server"%string])
    = Fatal "Syntax error: addr-env pair missing port."
        (init_portCycle (state0 (Flags "" 50000 60000 ["server"%string]))).
Proof.
  refine (proj1 (init_rejects_malformed_pair
                   (Flags "" 50000 60000 ["server"%string]) _) _).
  - discriminate.
  - reflexivity.
Defined.



(** ** Claims on the supervisor *)

Section Supervisor.

Context (w : world) (Hw : range_complete w).

Lemma range_pointers_NoDup i g :
  registry_ok g ->
  NoDup (rangeOrder w i (portMap g)).*2.
Proof.
  intros [_ Hinj]. rewrite (Hw i (portMap g)).
  apply NoDup_fmap_2_strong; [|apply NoDup_map_to_list].
  intros [k1 p1] [k2 p2] H1%elem_of_map_to_list H2%elem_of_map_to_list.
  cbn. intros <-. f_equal. by eapply Hinj.
Qed.

(** A visited entry: the forwarder exists, its [Cycle] returns the
    allocator result of its rank, and that is its destination after
    the loop. *)
Lemma spawn_env_entry i g j k p :
  registry_ok g ->
  rangeOrder w i (portMap g) !! j = Some (k, p) ->
  exists fw port,
    heap g !! p = Some fw /\
    (nextPorts (length (rangeOrder w i (portMap g))) g).1 !! j = Some port /\
    heap (spawn_env w i g).2 !! p = Some (PortForwarder (env fw) (src fw) port).
Proof.
  intros Hok Hj. pose proof Hok as [Hlive _].
  assert (Hin : (k, p) ∈ map_to_list (portMap g)).
  { rewrite <- (Hw i (portMap g)). by eapply list_elem_of_lookup_2. }
  apply elem_of_map_to_list, Hlive in Hin as [fw Hfw].
  destruct (lookup_lt_is_Some_2
              (nextPorts (length (rangeOrder w i (portMap g))) g).1 j)
    as [port Hport].
  { rewrite nextPorts_length. by eapply lookup_lt_Some. }
  exists fw, port. split; [done|]. split; [done|].
  unfold spawn_env.
  rewrite (rangeCycle_heap_dest _ _ _ j k p port); [by rewrite Hfw|..|done|done].
  by apply range_pointers_NoDup.
Qed.

Lemma spawn_env_rotation g i gi :
  before_spawn g i gi ->
  (spawn_env w i gi).1 = rotation_env w g i /\
  before_spawn g (S i) (spawn_env w i gi).2.
Proof.
  intros (He & Hm & Henv). unfold spawn_env, rotation_env, before_spawn.
  destruct (rangeCycle_spec (rangeOrder w i (portMap gi)) (Environ w) gi)
    as (Hspec & He' & Hm' & _ & Henv' & _).
  rewrite Hspec, Hm'. clear Hspec.
  assert (Hlen : length (rangeOrder w i (portMap gi)) = size (portMap g)).
  { by rewrite Hm, (Hw i (portMap g)), length_map_to_list. }
  rewrite Hlen in *. rewrite Hm in *.
  destruct (nextPorts_alloc_eq (size (portMap g)) _ _ He) as [Hl He2].
  rewrite Hl. split.
  - f_equal. apply zip_with_ext; [|done..]. intros [k p] port. cbn.
    by rewrite Henv.
  - split; [|split; [done|]].
    + replace (S i * size (portMap g))%nat
        with (i * size (portMap g) + size (portMap g))%nat by lia.
      destruct (nextPorts_app (i * size (portMap g)) (size (portMap g)) g)
        as [_ ->].
      destruct He' as (? & ? & ?), He2 as (? & ? & ?).
      unfold alloc_eq. repeat split; congruence.
    + intros q. by rewrite Henv', Henv.
Qed.

Lemma runner_trace_from args (pid : nat -> Z) n :
  forall i g gi,
  before_spawn g i gi ->
  (forall j, (i <= j <= i + n)%nat -> Start w j = Some (pid j)) ->
  (runner w args n i gi).1.1 =
    EvStart args (rotation_env w g i) true (Some (pid i))
    :: flat_map (fun j => restart_events args (pid j)
                            (rotation_env w g (S j)) (pid (S j)))
         (seq i n) /\
  (runner w args n i gi).2 = Blocked.
Proof.
  induction n as [|n IH]; intros i g gi Hb Hs;
    destruct (spawn_env_rotation g i gi Hb) as [Henv Hb'];
    cbn [runner]; destruct (spawn_env w i gi) as [envv g1];
    cbn [fst snd] in *; rewrite (Hs i) by lia; subst envv.
  - done.
  - destruct (IH (S i) g g1 Hb') as [Htr Hend].
    { intros j Hj. apply Hs. lia. }
    destruct (runner w args n (S i) g1) as [[tr g2] e].
    cbn [fst snd] in *. by rewrite Htr, Hend.
Qed.

End Supervisor.

(** ** The relay goroutines *)

(** C6.  The forwarder never closes the outbound connection: whatever
    relay goroutines have ended, only [sock] has been closed, once per
    ended goroutine. *)
Theorem relay_leaves_remote_open (finished : list relay) :
  (remote ∉ closed_by true finished) /\
  closed_by true [WriteThread] = [sock] /\
  closed_by true [WriteThread; ReadThread] = [sock; sock] /\
  closed_by false [] = [sock].
Proof.
  split; [|done]. unfold closed_by. cbn [accept_body fst snd app].
  induction finished as [|t l IH]; [by intros ?%elem_of_nil|].
  rewrite filter_cons. case_decide as Ht; [|done].
  cbn [flat_map]. intros [Hin|Hin]%elem_of_app; [|done].
  by destruct t; apply list_elem_of_singleton in Hin.
Qed.

(** * Further properties *)

(** ** The allocator on any configuration *)

Lemma nextPorts_config n : forall g,
  portMin (nextPorts n g).2 = portMin g /\
  portMax (nextPorts n g).2 = portMax g.
Proof.
  induction n as [|n IH]; intros g; [done|].
  destruct (nextPorts_S n g) as [_ ->].
  destruct (IH (nextPort g).2) as [-> ->]. done.
Qed.

(** X1.  Whatever the range and the cursor are, as long as
    [uint16(portMin)] and [uint16(portMax)] differ, no call of
    [nextPort] ever returns [uint16(portMax)]: the upper bound is
    exclusive. *)
Theorem nextPort_never_portMax (n : nat) (g : state) (p : Z) :
  uint16 (portMin g) <> uint16 (portMax g) ->
  p ∈ (nextPorts n g).1 -> p <> uint16 (portMax g).
Proof.
  revert g. induction n as [|n IH]; intros g Hne.
  - by intros ?%elem_of_nil.
  - destruct (nextPorts_S n g) as [-> _].
    intros [->|Hin]%elem_of_cons.
    + unfold nextPort. cbn [fst].
      destruct (Z.eqb_spec (uint16 (portCycle g + 1)) (uint16 (portMax g)));
        congruence.
    + destruct (nextPort_config g) as (Hmn & Hmx & _).
      rewrite <- Hmx. apply IH; [by rewrite Hmn, Hmx|done].
Qed.

Lemma nextPort_never_portMax_witness :
  50001 <> uint16 (portMax (State 50000 50003 49999 [] ∅ [])).
Proof.
  refine (nextPort_never_portMax 3 (State 50000 50003 49999 [] ∅ []) 50001
            _ _).
  - by vm_compute.
  - apply list_elem_of_In. vm_compute. right. by left.
Defined.

(** X2.  For a range of ports and a cursor inside it, [max - min] calls
    bring the cursor back to where it was, so the results repeat with
    that period. *)
Theorem nextPort_period (g : state) (n : nat) :
  port_range g -> portMin g <= portCycle g < portMax g ->
  portCycle (nextPorts (Z.to_nat (range_size g)) g).2 = portCycle g /\
  (nextPorts n (nextPorts (Z.to_nat (range_size g)) g).2).1
    = (nextPorts n g).1.
Proof.
  intros Hr Hc.
  pose proof (in_range_position g Hr Hc) as Hpos.
  destruct (nextPorts_at (Z.to_nat (range_size g)) g _ Hr Hpos)
    as (_ & Hcur & Hmn & Hmx).
  assert (Heq : portCycle (nextPorts (Z.to_nat (range_size g)) g).2
                = portCycle g).
  { rewrite Hcur.
    replace (Z.to_nat (range_size g) + S (Z.to_nat (portCycle g - portMin g)))%nat
      with (S (Z.to_nat (range_size g) + Z.to_nat (portCycle g - portMin g)))
      by lia.
    destruct Hr as (? & ? & ?). unfold cursor_at, range_size in *.
    rewrite Nat2Z.inj_add, !Z2Nat.id by lia.
    rewrite <- Zplus_mod_idemp_l, Z_mod_same_full, Z.add_0_l, Z.mod_small;
      lia. }
  split; [done|]. by apply nextPorts_alloc_eq.
Qed.

Lemma nextPort_period_witness :
  (nextPorts 2 (nextPorts 3 (State 50000 50003 50001 [] ∅ [])).2).1
  = (nextPorts 2 (State 50000 50003 50001 [] ∅ [])).1.
Proof.
  refine (proj2 (nextPort_period (State 50000 50003 50001 [] ∅ []) 2 _ _)).
  - unfold port_range. cbn. lia.
  - cbn. lia.
Defined.

(** X3.  When [uint16(portMin)] and [uint16(portMax)] coincide, as for
    an empty range [port-max = port-min], the range has no effect: from
    any cursor the [j]-th call returns the cursor plus [j] modulo 2^16,
    so every 16-bit value is handed out. *)
Theorem nextPort_degenerate_range (n : nat) (g : state) :
  uint16 (portMin g) = uint16 (portMax g) ->
  (nextPorts n g).1
    = (fun j => uint16 (portCycle g + Z.of_nat j)) <$> seq 1 n.
Proof.
  revert g. induction n as [|n IH]; intros g He; [done|].
  destruct (nextPorts_S n g) as [-> _].
  destruct (nextPort_config g) as (Hmn & Hmx & _).
  assert (Hp : (nextPort g).1 = uint16 (portCycle g + 1)).
  { unfold nextPort. cbn [fst].
    destruct (Z.eqb_spec (uint16 (portCycle g + 1)) (uint16 (portMax g)));
      congruence. }
  rewrite IH by (by rewrite Hmn, Hmx).
  rewrite <- nextPort_result, Hp. cbn [seq fmap list_fmap]. f_equal.
  rewrite <- (fmap_S_seq 1 n), <- list_fmap_compose.
  apply list_fmap_ext. intros i j _. unfold compose, uint16.
  rewrite Zplus_mod_idemp_l. f_equal. lia.
Qed.

Lemma nextPort_degenerate_range_witness :
  (nextPorts 2 (State 50000 50000 65534 [] ∅ [])).1
  = [uint16 (65534 + 1); uint16 (65534 + 2)].
Proof.
  refine (nextPort_degenerate_range 2 (State 50000 50000 65534 [] ∅ []) _).
  reflexivity.
Defined.

(** ** The rotation seen from the forwarders *)

Section Forwarders.

Context (w : world) (Hw : range_complete w).

Lemma range_length i g :
  length (rangeOrder w i (portMap g)) = size (portMap g).
Proof. by rewrite (Hw i (portMap g)), length_map_to_list. Qed.

(** What a spawn leaves of the state. *)
Lemma spawn_env_frame i g :
  alloc_eq (spawn_env w i g).2 (nextPorts (size (portMap g)) g).2 /\
  portMap (spawn_env w i g).2 = portMap g /\
  spawned (spawn_env w i g).2 = spawned g /\
  length (heap (spawn_env w i g).2) = length (heap g).
Proof.
  unfold spawn_env.
  destruct (rangeCycle_spec (rangeOrder w i (portMap g)) (Environ w) g)
    as (_ & He & Hm & Hs & _ & Hl).
  by rewrite range_length in He.
Qed.

Lemma spawn_env_registry_ok i g :
  registry_ok g -> registry_ok (spawn_env w i g).2.
Proof.
  intros [Hlive Hinj]. destruct (spawn_env_frame i g) as (_ & Hm & _ & Hl).
  split; rewrite Hm; [|done].
  intros k p Hk%Hlive. apply lookup_lt_is_Some. rewrite Hl.
  by apply lookup_lt_is_Some.
Qed.

(** The destination a registered forwarder has after a spawn is one of
    the results of that spawn's calls. *)
Lemma spawn_env_dest i g k p fw :
  registry_ok g -> portMap g !! k = Some p ->
  heap (spawn_env w i g).2 !! p = Some fw ->
  dest fw ∈ (nextPorts (size (portMap g)) g).1.
Proof.
  intros Hok Hk Hfw.
  assert (Hin : (k, p) ∈ rangeOrder w i (portMap g)).
  { rewrite (Hw i (portMap g)). by apply elem_of_map_to_list. }
  apply list_elem_of_lookup_1 in Hin as [j Hj].
  destruct (spawn_env_entry w Hw i g j k p Hok Hj)
    as (fw0 & port & _ & Hport & Hdest).
  rewrite Hfw in Hdest. injection Hdest as ->. cbn.
  rewrite range_length in Hport. by eapply list_elem_of_lookup_2.
Qed.

End Forwarders.

Lemma rangeCycle_names l : forall envv g,
  (fun fw => (env fw, src fw)) <$> heap (rangeCycle l envv g).2
  = (fun fw => (env fw, src fw)) <$> heap g.
Proof.
  induction l as [|[k p] l IH]; intros envv g; [done|].
  cbn [rangeCycle]. destruct (Cycle_spec p g) as (_ & _ & _ & _ & Hh).
  destruct (Cycle p g) as [port g1]. cbn [fst snd] in *.
  rewrite IH, Hh.
  rewrite (list_fmap_alter _ _ id) by by apply Forall_true.
  by apply list_alter_id.
Qed.

(** X4.  After a spawn, the address the accept loop of a registered
    forwarder dials next is the one its environment entry announces:
    the entry is [NAME=] followed by that address, [localhost:] and the
    port its [Cycle] returned. *)
Theorem dial_address_matches_env (w : world) (i : nat) (g : state)
  (j : nat) (k : Z) (p : nat) :
  range_complete w -> registry_ok g ->
  rangeOrder w i (portMap g) !! j = Some (k, p) ->
  exists port,
    (nextPorts (size (portMap g)) g).1 !! j = Some port /\
    raddr_of (heap (spawn_env w i g).2) p = "localhost:" +:+ pretty port /\
    (spawn_env w i g).1 !! (length (Environ w) + j)%nat
      = Some (env_of (heap g) p +:+ "=" +:+
              raddr_of (heap (spawn_env w i g).2) p).
Proof.
  intros Hw Hok Hj.
  destruct (spawn_env_entry w Hw i g j k p Hok Hj)
    as (fw & port & Hfw & Hport & Hdest).
  exists port. rewrite <- (range_length w Hw i g). split; [done|].
  unfold raddr_of. rewrite Hdest. cbn [dest]. split; [done|].
  unfold spawn_env at 1.
  destruct (rangeCycle_spec (rangeOrder w i (portMap g)) (Environ w) g)
    as (-> & _).
  rewrite lookup_app_r, lookup_zip_with by lia.
  replace (length (Environ w) + j - length (Environ w))%nat with j by lia.
  by rewrite Hj, Hport.
Qed.

Lemma dial_address_matches_env_witness :
  raddr_of
    (heap (spawn_env
       (World ["HOME=/root"%string] (fun _ => Some 7)
          (fun _ m => map_to_list m)) 0
       (outcome_state
          (init (Flags "APP_ADDR:8080" 50000 50003 ["server"%string])))).2)
    0
  = "localhost:50000"%string.
Proof.
  destruct (dial_address_matches_env
    (World ["HOME=/root"%string] (fun _ => Some 7)
       (fun _ m => map_to_list m)) 0
    (outcome_state
       (init (Flags "APP_ADDR:8080" 50000 50003 ["server"%string])))
    0 8080 0) as (port & Hport & Hr & _).
  - by intros j m.
  - by destruct (init_inv (Flags "APP_ADDR:8080" 50000 50003 ["server"%string]))
      as (_ & _ & ? & _).
  - by vm_compute.
  - vm_compute in Hport. injection Hport as <-. exact Hr.
Defined.

(** X5.  A forwarder that the registry does not point to is never
    rotated: a spawn leaves it as it is, so its accept loop keeps
    dialing the same address. *)
Theorem unregistered_forwarder_not_rotated (w : world) (i : nat) (g : state)
  (p : nat) :
  range_complete w ->
  (forall k, portMap g !! k <> Some p) ->
  heap (spawn_env w i g).2 !! p = heap g !! p /\
  raddr_of (heap (spawn_env w i g).2) p = raddr_of (heap g) p.
Proof.
  intros Hw Hp.
  assert (Hh : heap (spawn_env w i g).2 !! p = heap g !! p).
  { apply rangeCycle_heap_other. rewrite (Hw i (portMap g)).
    intros ([k p'] & -> & Hin%elem_of_map_to_list)%list_elem_of_fmap.
    by apply (Hp k). }
  split; [done|]. unfold raddr_of. by rewrite Hh.
Qed.

Lemma unregistered_forwarder_not_rotated_witness :
  raddr_of
    (heap (spawn_env
       (World [] (fun _ => Some 7) (fun _ m => map_to_list m)) 0
       (outcome_state
          (init (Flags "A:8080,B:8080" 50000 50003 ["server"%string])))).2)
    0
  = "localhost:0"%string.
Proof.
  refine (eq_trans (proj2 (unregistered_forwarder_not_rotated
    (World [] (fun _ => Some 7) (fun _ m => map_to_list m)) 0
    (outcome_state
       (init (Flags "A:8080,B:8080" 50000 50003 ["server"%string])))
    0 _ _)) _).
  - by intros j m.
  - intros k Hk.
    assert (Hin : (k, 0%nat) ∈ map_to_list (portMap (outcome_state
      (init (Flags "A:8080,B:8080" 50000 50003 ["server"%string])))))
      by by apply elem_of_map_to_list.
    apply list_elem_of_In in Hin. vm_compute in Hin.
    by destruct Hin as [[=]|[]].
  - reflexivity.
Defined.

(** X6.  For a range of ports that holds twice as many ports as there
    are registered forwarders, no forwarder gets, in a spawn, a
    destination that some forwarder had from the spawn before. *)
Theorem consecutive_spawns_disjoint (w : world) (i : nat) (g : state)
  (k1 k2 : Z) (p1 p2 : nat) (fw1 fw2 : portForwarder) :
  range_complete w -> registry_ok g -> port_range g -> on_cycle g ->
  2 * Z.of_nat (size (portMap g)) <= range_size g ->
  portMap g !! k1 = Some p1 -> portMap g !! k2 = Some p2 ->
  heap (spawn_env w i g).2 !! p1 = Some fw1 ->
  heap (spawn_env w (S i) (spawn_env w i g).2).2 !! p2 = Some fw2 ->
  dest fw1 <> dest fw2.
Proof.
  intros Hw Hok Hr Hc Hn Hk1 Hk2 Hfw1 Hfw2.
  destruct (spawn_env_frame w Hw i g) as (He & Hm & _).
  pose proof (spawn_env_dest w Hw i g k1 p1 fw1 Hok Hk1 Hfw1) as H1.
  pose proof (spawn_env_dest w Hw (S i) _ k2 p2 fw2
                (spawn_env_registry_ok w Hw i g Hok)) as H2.
  rewrite Hm in H2. specialize (H2 Hk2 Hfw2).
  destruct (nextPorts_alloc_eq (size (portMap g)) _ _ He) as [Hl _].
  rewrite Hl in H2.
  pose proof (nextPorts_NoDup (size (portMap g) + size (portMap g)) g Hr Hc
                ltac:(lia)) as Hnd.
  destruct (nextPorts_app (size (portMap g)) (size (portMap g)) g) as [Ha _].
  rewrite Ha in Hnd. apply NoDup_app in Hnd as (_ & Hdis & _).
  intros E. apply (Hdis _ H1). by rewrite E.
Qed.

Lemma consecutive_spawns_disjoint_witness :
  dest (PortForwarder "APP_ADDR" 8080 50000)
  <> dest (PortForwarder "APP_ADDR" 8080 50001).
Proof.
  refine (consecutive_spawns_disjoint
    (World [] (fun _ => Some 7) (fun _ m => map_to_list m)) 0
    (outcome_state
       (init (Flags "APP_ADDR:8080" 50000 50003 ["server"%string])))
    8080 8080 0 0 _ _ _ _ _ _ _ _ _ _ _).
  - by intros j m.
  - by destruct (init_inv (Flags "APP_ADDR:8080" 50000 50003 ["server"%string]))
      as (_ & _ & ? & _).
  - unfold port_range. repeat split; by vm_compute.
  - by exists 0%nat.
  - by vm_compute.
  - by vm_compute.
  - by vm_compute.
  - by vm_compute.
  - by vm_compute.
Defined.

(** ** The supervisor on any run *)

Lemma spawn_env_config (w : world) i g :
  portMin (spawn_env w i g).2 = portMin g /\
  portMax (spawn_env w i g).2 = portMax g /\
  portMap (spawn_env w i g).2 = portMap g /\
  spawned (spawn_env w i g).2 = spawned g /\
  (fun fw => (env fw, src fw)) <$> heap (spawn_env w i g).2
  = (fun fw => (env fw, src fw)) <$> heap g.
Proof.
  unfold spawn_env.
  destruct (rangeCycle_spec (rangeOrder w i (portMap g)) (Environ w) g)
    as (_ & (Hmn & Hmx & _) & Hm & Hs & _).
  destruct (nextPorts_config (length (rangeOrder w i (portMap g))) g)
    as [Hmn' Hmx'].
  rewrite rangeCycle_names. repeat split; congruence.
Qed.

(** X7.  However a run of the supervisor goes (any number of pulses,
    spawns that succeed or fail, any visiting order), it changes
    nothing but the cursor and the destinations: the range, the
    registry, the goroutines launched and the name and public port of
    every forwarder are those it started with. *)
Theorem runner_changes_only_rotation (w : world) (args : list string)
  (n i : nat) (g : state) :
  portMin (runner w args n i g).1.2 = portMin g /\
  portMax (runner w args n i g).1.2 = portMax g /\
  portMap (runner w args n i g).1.2 = portMap g /\
  spawned (runner w args n i g).1.2 = spawned g /\
  (fun fw => (env fw, src fw)) <$> heap (runner w args n i g).1.2
  = (fun fw => (env fw, src fw)) <$> heap g.
Proof.
  revert i g. induction n as [|n IH]; intros i g;
    pose proof (spawn_env_config w i g) as Hc;
    cbn [runner]; destruct (spawn_env w i g) as [envv g1];
    cbn [fst snd] in Hc; destruct (Start w i) as [pid|]; try done.
  specialize (IH (S i) g1).
  destruct (runner w args n (S i) g1) as [[tr g2] e]. cbn [fst snd] in *.
  destruct IH as (-> & -> & -> & -> & ->). done.
Qed.

Lemma runner_fails_from (w : world) (Hw : range_complete w) args
  (pid : nat -> Z) k : forall n i g gi,
  before_spawn g i gi -> (k <= n)%nat ->
  (forall j, (i <= j < i + k)%nat -> Start w j = Some (pid j)) ->
  Start w (i + k)%nat = None ->
  (runner w args n i gi).1.1 =
    spawn_restarts w args pid g i k ++
    [EvStart args (rotation_env w g (i + k)) true None;
     EvFatal "Error executing command:"] /\
  (runner w args n i gi).2 = Died.
Proof.
  induction k as [|k IH]; intros n i g gi Hb Hk Hs Hf;
    destruct (spawn_env_rotation w Hw g i gi Hb) as [Henv Hb'].
  - rewrite Nat.add_0_r in Hf. destruct n; cbn [runner];
      destruct (spawn_env w i gi) as [envv g1]; cbn [fst snd] in *;
      rewrite Hf, Nat.add_0_r; by subst envv.
  - destruct n as [|n]; [lia|]. cbn [runner].
    destruct (spawn_env w i gi) as [envv g1]. cbn [fst snd] in *.
    rewrite (Hs i) by lia. subst envv.
    destruct (IH n (S i) g g1 Hb') as [Htr Hend]; [lia| |by rewrite <- Hf; f_equal; lia|].
    { intros j Hj. apply Hs. lia. }
    destruct (runner w args n (S i) g1) as [[tr g2] e].
    cbn [fst snd] in *. rewrite Htr, Hend.
    replace (S i + k)%nat with (i + S k)%nat by lia. done.
Qed.

(** X8.  When the spawn after the [k]-th pulse is the first to fail,
    the supervisor has killed and reaped each of the [k] children it
    started, ends in [log.Fatalln] right after the failed spawn without
    a further kill, and leaves the remaining pulses unread. *)
Theorem runner_spawn_failure_fatal (w : world) (args : list string)
  (pid : nat -> Z) (k n : nat) (g : state) :
  range_complete w -> (k <= n)%nat ->
  (forall j, (j < k)%nat -> Start w j = Some (pid j)) ->
  Start w k = None ->
  (runner w args n 0 g).1.1 =
    spawn_restarts w args pid g 0 k ++
    [EvStart args (rotation_env w g k) true None;
     EvFatal "Error executing command:"] /\
  (runner w args n 0 g).2 = Died.
Proof.
  intros Hw Hk Hs Hf.
  apply (runner_fails_from w Hw args pid k n 0 g g); try done.
  intros j Hj. apply Hs. lia.
Qed.

Lemma runner_spawn_failure_fatal_witness :
  (runner
     (World [] (fun i => if (i =? 1)%nat then None else Some 100)
        (fun _ m => map_to_list m))
     ["server"%string] 5 0
     (outcome_state
        (init (Flags "APP_ADDR:8080" 50000 50003 ["server"%string])))).2
  = Died.
Proof.
  refine (proj2 (runner_spawn_failure_fatal
    (World [] (fun i => if (i =? 1)%nat then None else Some 100)
       (fun _ m => map_to_list m))
    ["server"%string] (fun _ => 100) 1 5
    (outcome_state
       (init (Flags "APP_ADDR:8080" 50000 50003 ["server"%string])))
    _ _ _ _)).
  - by intros j m.
  - lia.
  - intros j Hj. by replace j with 0%nat by lia.
  - reflexivity.
Defined.

(** ** What [init] builds *)

Lemma init_pairs_heap l : forall g,
  Forall (fun s => valid_pair s = true) l ->
  heap (outcome_state (init_pairs l g)) = heap g ++ (pair_forwarder <$> l).
Proof.
  induction l as [|s l IH]; intros g Hall.
  { cbn. by rewrite app_nil_r. }
  apply Forall_cons in Hall as [Hs Hall].
  rewrite init_pairs_step, Hs. unfold valid_pair in Hs.
  cbn [fmap list_fmap]. unfold pair_forwarder at 1.
  destruct (SplitN2 s ":") as [|name [|port_s [|? ?]]]; try done.
  cbn [lookup list_lookup default id from_option].
  destruct (Atoi port_s) as [port|]; [|done].
  rewrite IH by done.
  destruct (register_spec name (uint16 port) g) as (_ & -> & _).
  by rewrite <- app_assoc.
Qed.

Lemma init_ok_valid f g :
  init f = Ok g ->
  Forall (fun s => valid_pair s = true) (Split (addrEnvs f) ",").
Proof.
  intros Hok.
  destruct (decide (Forall (fun s => valid_pair s = true)
                      (Split (addrEnvs f) ","))) as [Hall|Hex]; [done|].
  apply not_Forall_Exists in Hex; [|apply _].
  apply Exists_exists in Hex as (s & Hin & Hs).
  destruct (proj2 (init_fatal_iff f)) as (msg & g' & Hf); [|congruence].
  right. exists s. split; [done|]. by apply not_true_is_false.
Qed.

(** X9.  When [init] returns, it has created one forwarder per element
    of the [-addr-env] list, in list order: its name is the text before
    the first [:], its public port the number after it reduced to 16
    bits, its destination 0; each has had its [Run] launched. *)
Theorem init_creates_pair_forwarders (f : flags) (g : state) :
  init f = Ok g ->
  heap g = pair_forwarder <$> Split (addrEnvs f) "," /\
  spawned g = seq 0 (length (Split (addrEnvs f) ",")) /\
  Forall (fun fw => dest fw = 0 /\ 0 <= src fw < 65536) (heap g).
Proof.
  intros Hok. pose proof (init_ok_valid f g Hok) as Hall.
  pose proof (init_inv f) as (_ & _ & _ & Hl & _).
  assert (Hh : heap g = pair_forwarder <$> Split (addrEnvs f) ",").
  { unfold init in Hok. destruct (_ <? _)%nat; [done|].
    pose proof (init_pairs_heap _ (init_portCycle (state0 f)) Hall) as Hh.
    by rewrite Hok in Hh. }
  rewrite Hok in Hl. cbn in Hl. unfold all_launched in Hl.
  split; [done|]. split; [by rewrite Hl, Hh, length_fmap|].
  rewrite Hh. apply Forall_fmap, Forall_true. intros s.
  unfold pair_forwarder, compose.
  destruct (SplitN2 s ":") as [|name [|port_s ?]]; cbn; try done.
  split; [done|]. by apply Z.mod_pos_bound.
Qed.

Lemma init_creates_pair_forwarders_witness :
  heap (outcome_state
          (init (Flags "A:8080,B:-1" 50000 50003 ["server"%string])))
  = [PortForwarder "A" 8080 0; PortForwarder "B" 65535 0].
Proof.
  refine (eq_trans (proj1 (init_creates_pair_forwarders
    (Flags "A:8080,B:-1" 50000 50003 ["server"%string]) _ _)) _).
  - reflexivity.
  - reflexivity.
Defined.

Lemma register_last name k g :
  (forall k' p, portMap g !! k' = Some p <-> last_with_src (heap g) k' p) ->
  forall k' p,
    portMap (register name k g) !! k' = Some p <->
    last_with_src (heap (register name k g)) k' p.
Proof.
  intros Hinv k' p.
  destruct (register_spec name k g) as (_ & -> & _ & ->).
  unfold last_with_src. rewrite lookup_insert. case_decide as Hk.
  - subst k'. split.
    + intros [= <-]. split.
      * exists (PortForwarder name k 0). split; [|done].
        by apply list_lookup_middle.
      * intros q fw Hq%lookup_lt_Some _. rewrite length_app in Hq.
        cbn in Hq. lia.
    + intros [(fw & Hfw & _) Hlast]. f_equal.
      apply lookup_lt_Some in Hfw. rewrite length_app in Hfw. cbn in Hfw.
      specialize (Hlast (length (heap g)) (PortForwarder name k 0)
                    (list_lookup_middle _ _ _ _ eq_refl) eq_refl).
      lia.
  - rewrite Hinv. unfold last_with_src. split.
    + intros [(fw & Hfw & Hs) Hlast]. split.
      * exists fw. split; [by apply lookup_app_l_Some|done].
      * intros q fw' [Hq|[_ Hq]]%lookup_app_Some Hs'; [by eapply Hlast|].
        apply list_lookup_singleton_Some in Hq as [_ <-]. by cbn in Hs'.
    + intros [(fw & Hfw & Hs) Hlast].
      apply lookup_app_Some in Hfw as [Hfw|[_ Hfw]].
      * split; [by exists fw|]. intros q fw' Hq Hs'.
        apply (Hlast q fw'); [by apply lookup_app_l_Some|done].
      * apply list_lookup_singleton_Some in Hfw as [_ <-]. by cbn in Hs.
Qed.

Lemma init_pairs_last l : forall g,
  (forall k p, portMap g !! k = Some p <-> last_with_src (heap g) k p) ->
  forall k p,
    portMap (outcome_state (init_pairs l g)) !! k = Some p <->
    last_with_src (heap (outcome_state (init_pairs l g))) k p.
Proof.
  induction l as [|s l IH]; intros g Hinv; [done|].
  rewrite init_pairs_step. destruct (valid_pair s); [|done].
  destruct (SplitN2 s ":") as [|name ?]; [done|].
  destruct (Atoi _) as [port|]; [|done].
  by apply IH, register_last.
Qed.

(** X10.  The registry is keyed by public port and the last pair wins:
    whatever [init] was given, [portMap[k]] is the last forwarder
    created with public port [k], and an earlier forwarder on the same
    port is in no entry of the registry. *)
Theorem registry_last_pair_wins (f : flags) (k : Z) (p : nat) :
  portMap (outcome_state (init f)) !! k = Some p <->
  last_with_src (heap (outcome_state (init f))) k p.
Proof.
  assert (H0 : forall g : state, heap g = [] -> portMap g = ∅ ->
            forall k p, portMap g !! k = Some p <->
                        last_with_src (heap g) k p).
  { intros g -> -> k' p'. rewrite lookup_empty. unfold last_with_src.
    split; [done|]. by intros [(fw & Hfw & _) _]. }
  unfold init. destruct (_ <? _)%nat; [by apply H0|].
  by apply init_pairs_last, H0.
Qed.

(** ** The accept loop *)

(** X11.  The accept loop outlives dial failures and ends at the first
    [Accept] error: every connection accepted before that error is
    handled, later ones never; a handled connection is dialed at the
    destination the forwarder has at that turn, and is closed at once
    when the dial fails, handed to the two relay goroutines when it
    succeeds. *)
Theorem Run_loop_handles_until_accept_error (h : nat -> list portForwarder)
  (p i : nat) (conns : list accepted) :
  (Run_loop h p i conns).1 =
    imap (fun j c =>
            match c with
            | AcceptOk true =>
                Handled (raddr_of (h (i + j)%nat) p) []
                  [ReadThread; WriteThread]
            | _ => Handled (raddr_of (h (i + j)%nat) p) [sock] []
            end)
      (before_accept_err conns) /\
  ((Run_loop h p i conns).2 = Returned <-> AcceptErr ∈ conns).
Proof.
  revert i. induction conns as [|[|ok] rest IH]; intros i.
  - split; [done|]. split; [done|by intros ?%elem_of_nil].
  - split; [done|]. split; [intros _; by left|done].
  - cbn [Run_loop before_accept_err]. destruct (IH (S i)) as [Hl Hr].
    destruct (Run_loop h p (S i) rest) as [hs st]. cbn [fst snd] in *.
    split.
    + rewrite imap_cons, Nat.add_0_r, Hl. f_equal; [by destruct ok|].
      apply imap_ext. intros j c _. cbn. by rewrite Nat.add_succ_r.
    + rewrite Hr. split; [intros ?; by right|].
      by intros [[=]|?]%elem_of_cons.
Qed.

(** ** The debouncer *)

Lemma debouncer_bounce_inputs k rest :
  debouncer Bounce (replicate k ObsInput ++ rest)
  = (replicate k DReset ++ (debouncer Bounce rest).1,
     (debouncer Bounce rest).2).
Proof.
  induction k as [|k IH]; [cbn; by destruct (debouncer Bounce rest)|].
  cbn [replicate app debouncer debounce_step]. by rewrite IH.
Qed.

Lemma debouncer_drain_inputs m rest :
  debouncer Drain (replicate m ObsInput ++ rest) = debouncer Drain rest.
Proof.
  induction m as [|m IH]; [done|].
  cbn [replicate app debouncer debounce_step]. rewrite IH.
  by destruct (debouncer Drain rest).
Qed.

(** X12.  A burst coalesces into one pulse: when [k + 1] events are
    received with no timer tick in between, the timer is re-armed at
    each of them and the tick that follows sends exactly one pulse; the
    [m] events queued at that moment are dropped without a pulse, and
    the debouncer then waits for a first event again. *)
Theorem debouncer_burst_one_pulse (k m : nat) :
  debouncer Idle
    (replicate (S k) ObsInput ++ [ObsTimer] ++
     replicate m ObsInput ++ [ObsEmpty])
  = (replicate (S k) DReset ++ [DOutput], Idle).
Proof.
  cbn [replicate app debouncer debounce_step].
  rewrite debouncer_bounce_inputs.
  cbn [app debouncer debounce_step]. by rewrite debouncer_drain_inputs.
Qed.

Lemma debouncer_output_after_reset script : forall s,
  (forall j, (debouncer s script).1 !! S j = Some DOutput ->
             (debouncer s script).1 !! j = Some DReset) /\
  (s <> Bounce -> (debouncer s script).1 !! 0%nat <> Some DOutput).
Proof.
  induction script as [|o rest IH]; intros s; [done|].
  cbn [debouncer].
  destruct s, o; cbn [debounce_step]; try done;
    match goal with
    | |- context [debouncer ?s' rest] =>
        destruct (IH s') as [IH1 IH2]; destruct (debouncer s' rest) as [tr s'']
    end; cbn [fst snd app] in *; (split; [|done || by auto]).
  - intros [|j] Hj; [done|]. by apply IH1.
  - intros [|j] Hj; [done|]. by apply IH1.
  - intros [|j] Hj; [|by apply IH1]. cbn in Hj. by apply IH2 in Hj.
  - done.
  - done.
Qed.

(** X13.  The debouncer never sends a pulse of its own accord: in every
    run from its start, whatever its waits yield, each pulse comes
    right after a re-arming of the timer, which only a received event
    causes; so no two pulses follow each other without an event in
    between. *)
Theorem debouncer_pulse_needs_event (script : list obs) (j : nat) :
  (debouncer Idle script).1 !! j = Some DOutput ->
  exists j', j = S j' /\ (debouncer Idle script).1 !! j' = Some DReset.
Proof.
  destruct (debouncer_output_after_reset script Idle) as [H1 H2].
  destruct j as [|j]; intros Hj; [by apply H2 in Hj|].
  exists j. split; [done|]. by apply H1.
Qed.

Lemma debouncer_pulse_needs_event_witness :
  exists j', 2%nat = S j' /\
    (debouncer Idle [ObsInput; ObsInput; ObsTimer; ObsEmpty]).1 !! j'
      = Some DReset.
Proof.
  refine (debouncer_pulse_needs_event
            [ObsInput; ObsInput; ObsTimer; ObsEmpty] 2 _).
  reflexivity.
Defined.

(** ** The event loop of [main] *)

Lemma watch_add fl path info q :
  WatcherAdd q ∈ (watch fl path info).1 ->
  q = path /\ unmatcher fl path = false /\
  (matcher fl path = true \/ info = Some true).
Proof.
  unfold watch.
  destruct (matcher fl path) eqn:Hm, info as [[]|], (unmatcher fl path);
    cbn; rewrite ?elem_of_nil, ?list_elem_of_singleton; try done;
    intros [= ->]; auto.
Qed.

Lemma signal_in_no_watcher fl path a :
  a ∈ signal_in fl path -> a = SignalIn.
Proof.
  unfold signal_in. destruct (_ && _); [|by intros ?%elem_of_nil].
  by intros ->%list_elem_of_singleton.
Qed.

Lemma handle_event_add fl stat ev q :
  WatcherAdd q ∈ (handle_event fl stat ev).1 ->
  Name ev = q /\ Op ev = fsnotify_Create /\ unmatcher fl q = false /\
  (matcher fl q = true \/ stat q = Some true).
Proof.
  unfold handle_event. destruct (Z.eqb_spec (Op ev) fsnotify_Create) as [Hc|Hc].
  - destruct (watch fl (Name ev) (stat (Name ev))) as [acts e] eqn:Hw.
    cbn [fst]. intros [Hin|Hin]%elem_of_app.
    + by apply signal_in_no_watcher in Hin.
    + replace acts with (watch fl (Name ev) (stat (Name ev))).1 in Hin
        by by rewrite Hw.
      apply watch_add in Hin as (-> & ? & ?). done.
  - destruct (Op ev =? fsnotify_Remove); cbn [fst].
    + intros [Hin|Hin]%elem_of_app;
        [by apply signal_in_no_watcher in Hin|].
      by apply list_elem_of_singleton in Hin.
    + by intros ?%signal_in_no_watcher.
Qed.

(** X14.  The loop of [main] never asks the watcher to watch a path
    that matches [ignore]: a path is added only on a pure [Create]
    event for it, only if it does not match [ignore], and only if it
    matches [regex] or is a directory. *)
Theorem main_loop_never_watches_ignored (fl : filters)
  (stat : string -> option bool) (evs : list fsevent) (q : string) :
  WatcherAdd q ∈ (main_loop fl stat evs).1 ->
  unmatcher fl q = false /\
  (matcher fl q = true \/ stat q = Some true) /\
  exists ev, ev ∈ evs /\ Name ev = q /\ Op ev = fsnotify_Create.
Proof.
  induction evs as [|ev rest IH]; [by intros ?%elem_of_nil|].
  cbn [main_loop].
  pose proof (handle_event_add fl stat ev q) as Hev.
  destruct (handle_event fl stat ev) as [acts []]; cbn [fst] in *.
  - destruct (main_loop fl stat rest) as [tr e]. cbn [fst] in *.
    intros [Hin|Hin]%elem_of_app.
    + destruct (Hev Hin) as (? & ? & ? & ?).
      repeat split; try done. exists ev. split; [by left|done].
    + destruct (IH Hin) as (? & ? & ev' & ? & ?).
      repeat split; try done. exists ev'. split; [by right|done].
  - intros Hin. destruct (Hev Hin) as (? & ? & ? & ?).
    repeat split; try done. exists ev. split; [by left|done].
Qed.

Lemma main_loop_never_watches_ignored_witness :
  unmatcher (Filters (fun _ => true) (fun _ => false)) "a.go" = false.
Proof.
  refine (proj1 (main_loop_never_watches_ignored
    (Filters (fun _ => true) (fun _ => false)) (fun _ => Some false)
    [FsEvent "a.go" 1] "a.go" _)).
  apply list_elem_of_In. vm_compute. right. by left.
Defined.

Lemma handle_event_panics fl stat ev :
  (handle_event fl stat ev).2 = Panics <-> panicking fl stat ev = true.
Proof.
  unfold handle_event, panicking, watch.
  destruct (Op ev =? fsnotify_Create), (Op ev =? fsnotify_Remove),
    (matcher fl (Name ev)), (stat (Name ev)); by cbn.
Qed.

(** X15.  The loop of [main] panics exactly when it receives a pure
    [Create] event for a path that does not match [regex] and that
    [os.Stat] cannot read any more: [watch] then calls [IsDir] on a nil
    [FileInfo].  With a [regex] that matches every path, as the default
    [.*], it never does. *)
Theorem main_loop_panics_iff (fl : filters) (stat : string -> option bool)
  (evs : list fsevent) :
  ((main_loop fl stat evs).2 = Panics <->
   exists ev, ev ∈ evs /\ panicking fl stat ev = true) /\
  ((forall path, matcher fl path = true) ->
   (main_loop fl stat evs).2 = Continues).
Proof.
  assert (Hiff : (main_loop fl stat evs).2 = Panics <->
                 exists ev, ev ∈ evs /\ panicking fl stat ev = true).
  { induction evs as [|ev rest IH].
    - split; [done|]. by intros (ev & ?%elem_of_nil & _).
    - cbn [main_loop]. pose proof (handle_event_panics fl stat ev) as Hev.
      destruct (handle_event fl stat ev) as [acts []]; cbn [snd] in *.
      + destruct (main_loop fl stat rest) as [tr e]. cbn [snd] in *.
        rewrite IH. split.
        * intros (ev' & ? & ?). exists ev'. split; [by right|done].
        * intros (ev' & [->|?]%elem_of_cons & Hp); [|by exists ev'].
          apply Hev in Hp. done.
      + split; [|done]. intros _. exists ev. split; [by left|by apply Hev]. }
  split; [done|]. intros Hall.
  destruct (main_loop fl stat evs).2 eqn:He; [done|].
  destruct (proj1 Hiff eq_refl) as (ev & _ & Hp). unfold panicking in Hp.
  rewrite Hall in Hp. by destruct (Op ev =? fsnotify_Create).
Qed.

(** X16.  As long as the loop of [main] does not panic, it sends one
    signal to the debouncer for each event whose path matches [regex]
    and not [ignore], whatever the operation of the event is, and none
    for the others. *)
Theorem main_loop_signal_per_matching_event (fl : filters)
  (stat : string -> option bool) (evs : list fsevent) :
  (main_loop fl stat evs).2 = Continues ->
  length (List.filter is_signal (main_loop fl stat evs).1)
  = length (List.filter (triggers fl) evs).
Proof.
  induction evs as [|ev rest IH]; [done|]. cbn [main_loop List.filter].
  assert (Hev : length (List.filter is_signal (handle_event fl stat ev).1)
                = if triggers fl ev then 1%nat else 0%nat).
  { unfold handle_event, signal_in, triggers, watch.
    destruct (Op ev =? fsnotify_Create), (Op ev =? fsnotify_Remove),
      (matcher fl (Name ev)), (unmatcher fl (Name ev)),
      (stat (Name ev)) as [[]|]; by cbn. }
  destruct (handle_event fl stat ev) as [acts []]; [|done].
  destruct (main_loop fl stat rest) as [tr e]. cbn [fst snd] in *.
  intros He. rewrite List.filter_app, length_app, Hev, (IH He).
  by destruct (triggers fl ev).
Qed.

Lemma main_loop_signal_per_matching_event_witness :
  length (List.filter is_signal
    (main_loop (Filters (fun _ => true) (fun p => String.eqb p ".git"))
       (fun _ => Some false)
       [FsEvent "a.go" 2; FsEvent ".git" 2; FsEvent "b.go" 4]).1)
  = 2%nat.
Proof.
  refine (eq_trans (main_loop_signal_per_matching_event
    (Filters (fun _ => true) (fun p => String.eqb p ".git"))
    (fun _ => Some false)
    [FsEvent "a.go" 2; FsEvent ".git" 2; FsEvent "b.go" 4] _) _).
  - reflexivity.
  - reflexivity.
Defined.

(** ** Reading the [-addr-env] list *)

Section Parsing.

Lemma append_cons x a b : String x a +:+ b = String x (a +:+ b).
Proof. done. Qed.

Lemma append_nil b : "" +:+ b = b.
Proof. done. Qed.

Lemma contains_app c a b :
  contains c (a +:+ b) = contains c a || contains c b.
Proof.
  induction a as [|x a IH]; [done|].
  rewrite append_cons. cbn [contains]. by rewrite IH, orb_assoc.
Qed.

Lemma Split_nonempty s sep : Split s sep <> [].
Proof.
  destruct s as [|c r]; [done|]. cbn.
  destruct (Ascii.eqb c sep); [done|]. by destruct (Split r sep).
Qed.

Lemma Split_no_sep s sep : contains sep s = false -> Split s sep = [s].
Proof.
  induction s as [|c r IH]; [done|]. cbn.
  intros [-> Hr]%orb_false_elim. by rewrite (IH Hr).
Qed.

(** Splitting distributes over a separator. *)
Lemma Split_app a b sep :
  Split (a +:+ String sep b) sep = Split a sep ++ Split b sep.
Proof.
  induction a as [|c a IH]; rewrite ?append_nil, ?append_cons; cbn [Split].
  - by rewrite Ascii.eqb_refl.
  - destruct (Ascii.eqb c sep); rewrite IH; [done|].
    pose proof (Split_nonempty a sep). by destruct (Split a sep).
Qed.

Lemma Split_concat sep l :
  l <> [] -> Forall (fun s => contains sep s = false) l ->
  Split (String.concat (String sep "") l) sep = l.
Proof.
  induction l as [|x [|y t] IH]; intros Hne Hall; [done|..].
  - apply Forall_cons in Hall as [Hx _]. by apply Split_no_sep.
  - apply Forall_cons in Hall as [Hx Hall].
    change (String.concat (String sep "") (x :: y :: t))
      with (x +:+ String sep (String.concat (String sep "") (y :: t))).
    rewrite Split_app, IH, Split_no_sep by done. done.
Qed.

Lemma SplitN2_cut name rest sep :
  contains sep name = false ->
  SplitN2 (name +:+ String sep rest) sep = [name; rest].
Proof.
  induction name as [|c r IH];
    rewrite ?append_nil, ?append_cons; cbn [SplitN2 contains].
  - by rewrite Ascii.eqb_refl.
  - intros [-> Hr]%orb_false_elim. by rewrite (IH Hr).
Qed.

Lemma digit_pretty_N_char d :
  (d < 10)%N -> digit (pretty_N_char d) = Some (Z.of_N d).
Proof.
  intros Hd.
  assert (d = 0 \/ d = 1 \/ d = 2 \/ d = 3 \/ d = 4 \/ d = 5 \/ d = 6
          \/ d = 7 \/ d = 8 \/ d = 9)%N as Hc by lia.
  by repeat destruct Hc as [->|Hc]; try subst d.
Qed.

(** [Atoi]'s digit loop reads what [pretty] writes. *)
Lemma digits_pretty_N_go x :
  exists k, forall s acc,
    digits (pretty_N_go x s) acc = digits s (acc * k + Z.of_N x).
Proof.
  induction (N.lt_wf_0 x) as [x _ IH].
  destruct (decide (x = 0)%N) as [->|Hx].
  - exists 1. intros s acc. rewrite pretty_N_go_0. f_equal. lia.
  - destruct (IH (x `div` 10)%N) as [k Hk]; [apply N.div_lt; lia|].
    exists (k * 10). intros s acc.
    rewrite pretty_N_go_step, Hk by lia. cbn [digits].
    rewrite digit_pretty_N_char by (apply N.mod_lt; lia). f_equal.
    pose proof (N.div_mod x 10 ltac:(lia)) as Hd.
    apply (f_equal Z.of_N) in Hd.
    rewrite N2Z.inj_add, N2Z.inj_mul in Hd. lia.
Qed.

Lemma contains_pretty_N_go c x : forall s,
  digit c = None -> contains c (pretty_N_go x s) = contains c s.
Proof.
  induction (N.lt_wf_0 x) as [x _ IH]. intros s Hc.
  destruct (decide (x = 0)%N) as [->|Hx]; [by rewrite pretty_N_go_0|].
  rewrite pretty_N_go_step, IH by (done || lia || (apply N.div_lt; lia)).
  cbn [contains].
  destruct (Ascii.eqb_spec (pretty_N_char (x `mod` 10)) c) as [<-|]; [|done].
  rewrite digit_pretty_N_char in Hc by (apply N.mod_lt; lia). done.
Qed.

Lemma contains_pretty_Z c (z : Z) :
  digit c = None -> c <> "-"%char -> contains c (pretty z) = false.
Proof.
  intros Hc Hm. unfold pretty, pretty_Z, pretty, pretty_positive, pretty,
    pretty_N.
  destruct z as [|x|x].
  - change (contains c "0" = false). cbn [contains].
    destruct (Ascii.eqb_spec "0" c) as [<-|]; [by vm_compute in Hc|done].
  - destruct (decide _); [done|]. by rewrite contains_pretty_N_go.
  - destruct (decide _); [done|]. rewrite append_cons, append_nil.
    cbn [contains]. rewrite contains_pretty_N_go by done.
    destruct (Ascii.eqb_spec "-" c) as [<-|]; done.
Qed.

Lemma Atoi_pretty (z : Z) :
  - 2 ^ 63 <= z < 2 ^ 63 -> Atoi (pretty z) = Some z.
Proof.
  intros Hz. unfold pretty, pretty_Z, pretty, pretty_positive, pretty,
    pretty_N.
  destruct z as [|x|x]; [done|..]; (destruct (decide _); [done|]);
    destruct (digits_pretty_N_go (N.pos x)) as [k Hk];
    pose proof (Hk "" 0) as Hd; cbn [digits] in Hd;
    replace (0 * k + Z.of_N (N.pos x)) with (Z.pos x) in Hd by lia;
    pose proof (contains_pretty_N_go "-" (N.pos x) "" eq_refl) as Hm;
    pose proof (contains_pretty_N_go "+" (N.pos x) "" eq_refl) as Hp;
    destruct (pretty_N_go (N.pos x) "") as [|c r] eqn:Hs; try done.
  - cbn in Hm, Hp. apply orb_false_elim in Hm as [Hm _].
    apply orb_false_elim in Hp as [Hp _].
    unfold Atoi. rewrite Hm, Hp. cbn [orb]. rewrite Hd.
    destruct (Z.leb_spec (- 2 ^ 63) (Z.pos x)); [|lia].
    destruct (Z.ltb_spec (Z.pos x) (2 ^ 63)); [done|lia].
  - unfold Atoi. rewrite append_cons, append_nil, Ascii.eqb_refl. cbn [orb]. rewrite Hd.
    change (- Z.pos x) with (Z.neg x).
    destruct (Z.leb_spec (- 2 ^ 63) (Z.neg x)); [|lia].
    destruct (Z.ltb_spec (Z.neg x) (2 ^ 63)); [done|lia].
Qed.

End Parsing.

Lemma render_pair_parts (nz : string * Z) :
  contains ":" nz.1 = false -> - 2 ^ 63 <= nz.2 < 2 ^ 63 ->
  valid_pair (render_pair nz) = true /\
  pair_forwarder (render_pair nz) = PortForwarder nz.1 (uint16 nz.2) 0.
Proof.
  intros Hn Hz. unfold valid_pair, pair_forwarder, render_pair.
  change (":" +:+ pretty nz.2) with (String ":" (pretty nz.2)).
  by rewrite (SplitN2_cut _ _ _ Hn), (Atoi_pretty _ Hz).
Qed.

(** X17.  Given a command, [init] reads a list written as
    [NAME:PORT,...,NAME:PORT], with names free of [,] and [:] and ports
    in decimal, as exactly these pairs: it returns, having created in
    this order one forwarder per pair with that name and that port
    reduced to 16 bits. *)
Theorem init_reads_rendered_pairs (ps : list (string * Z)) (mn mx : Z)
  (args : list string) :
  args <> [] -> ps <> [] ->
  Forall (fun nz => contains "," nz.1 = false /\ contains ":" nz.1 = false /\
                    - 2 ^ 63 <= nz.2 < 2 ^ 63) ps ->
  exists g,
    init (Flags (String.concat "," (render_pair <$> ps)) mn mx args) = Ok g /\
    heap g = (fun nz => PortForwarder nz.1 (uint16 nz.2) 0) <$> ps.
Proof.
  intros Hargs Hps Hall.
  assert (Hsplit : Split (String.concat "," (render_pair <$> ps)) ","
                   = render_pair <$> ps).
  { apply Split_concat; [by destruct ps|].
    apply Forall_fmap. eapply Forall_impl; [exact Hall|].
    intros nz (Hc & _ & _). unfold compose, render_pair.
    rewrite !contains_app, Hc, contains_pretty_Z by done. done. }
  assert (Hvalid : Forall (fun s => valid_pair s = true) (render_pair <$> ps)).
  { apply Forall_fmap. eapply Forall_impl; [exact Hall|].
    intros nz (_ & Hn & Hz). by apply render_pair_parts. }
  unfold init. cbn [Args addrEnvs]. rewrite Hsplit.
  destruct args as [|a args]; [done|]. cbn [length Nat.ltb Nat.leb].
  destruct (init_pairs_ok _ (init_portCycle
              (state0 (Flags (String.concat "," (render_pair <$> ps))
                         mn mx (a :: args)))) Hvalid) as [g Hg].
  exists g. split; [done|].
  pose proof (init_pairs_heap _ (init_portCycle
              (state0 (Flags (String.concat "," (render_pair <$> ps))
                         mn mx (a :: args)))) Hvalid) as Hh.
  rewrite Hg in Hh. cbn in Hh. rewrite Hh, <- list_fmap_compose.
  apply list_fmap_ext. intros i nz Hi. unfold compose.
  apply list_elem_of_lookup_2 in Hi.
  rewrite Forall_forall in Hall. destruct (Hall nz Hi) as (_ & Hn & Hz).
  by apply render_pair_parts.
Qed.

Lemma init_reads_rendered_pairs_witness :
  exists g,
    init (Flags "LISTEN_HTTP:8080,LISTEN_PPROF:6600" 50000 60000
            ["server"%string]) = Ok g /\
    heap g = [PortForwarder "LISTEN_HTTP" 8080 0;
              PortForwarder "LISTEN_PPROF" 6600 0].
Proof.
  refine (init_reads_rendered_pairs
    [("LISTEN_HTTP"%string, 8080); ("LISTEN_PPROF"%string, 6600)]
    50000 60000 ["server"%string] _ _ _).
  - discriminate.
  - discriminate.
  - repeat constructor; by vm_compute.
Defined.

(** X18.  Given a command, a list that ends or begins with a comma is a
    fatal syntax error: [init] sees an empty element there, which is no
    pair. *)
Theorem init_rejects_stray_comma (f : flags) (rest : string) :
  Args f <> [] ->
  addrEnvs f = rest +:+ "," \/ addrEnvs f = "," +:+ rest ->
  exists msg g, init f = Fatal msg g /\ syntax_error msg.
Proof.
  intros Hargs Hs. unfold init.
  destruct (Args f) as [|a args]; [done|]. cbn [length Nat.ltb Nat.leb].
  assert (Hin : ""%string ∈ Split (addrEnvs f) ",").
  { destruct Hs as [->| ->].
    - change ("," : string) with (String "," "").
      rewrite Split_app. apply elem_of_app. right. by left.
    - rewrite append_cons, append_nil. cbn [Split]. by left. }
  destruct (init_pairs_fatal _ (init_portCycle (state0 f))
              (ex_intro _ ""%string (conj Hin eq_refl)))
    as (msg & g & _ & _ & -> & Hmsg & _).
  by exists msg, g.
Qed.

Lemma init_rejects_stray_comma_witness :
  exists msg g,
    init (Flags "A:8080," 50000 60000 ["server"%string]) = Fatal msg g /\
    syntax_error msg.
Proof.
  refine (init_rejects_stray_comma
            (Flags "A:8080," 50000 60000 ["server"%string]) "A:8080" _ _).
  - discriminate.
  - by left.
Defined.

(** * The supervisor loop from [init] on *)

(** ** The allocator on a range of at most 2^16 values *)

Section Allocator16.

Lemma uint16_eq_small a b :
  uint16 a = uint16 b -> - 65536 < a - b < 65536 -> a = b.
Proof.
  unfold uint16. intros E Hd.
  pose proof (Z.div_mod a 65536 ltac:(lia)).
  pose proof (Z.div_mod b 65536 ltac:(lia)).
  assert (a / 65536 = b / 65536) by nia. lia.
Qed.

Lemma uint16_succ a : uint16 (uint16 a + 1) = uint16 (a + 1).
Proof. unfold uint16. by rewrite Zplus_mod_idemp_l. Qed.

Lemma cursor16_config g g' j :
  portMin g' = portMin g -> portMax g' = portMax g ->
  cursor16 g' j = cursor16 g j.
Proof. unfold cursor16, range_size. by intros -> ->. Qed.

(** One call from the cursor of position [j] returns the value of
    position [j + 1], whatever [portMin] is. *)
Lemma nextPort_at16 g j :
  1 <= range_size g <= 65536 -> portCycle g = cursor16 g j ->
  (nextPort g).1 = cursor16 g (S j).
Proof.
  intros Hk Hc. unfold nextPort. cbn [fst]. rewrite Hc.
  unfold cursor16, range_size in *.
  set (k := portMax g - portMin g) in *.
  assert (Hmax : portMax g = portMin g + k) by (unfold k; lia).
  destruct j as [|i].
  - replace (uint16 (uint16 (uint16 (portMin g) - 1) + 1))
      with (uint16 (portMin g)).
    2:{ rewrite uint16_succ. unfold uint16.
        replace (portMin g `mod` 65536 - 1 + 1) with (portMin g `mod` 65536)
          by lia.
        by rewrite Z.mod_mod. }
    rewrite Z.mod_0_l, Z.add_0_r by lia.
    by destruct (_ =? _).
  - pose proof (Z.mod_pos_bound (Z.of_nat i) k ltac:(lia)) as Hb.
    rewrite uint16_succ.
    replace (Z.of_nat (S i)) with (Z.of_nat i + 1) by lia.
    rewrite (succ_mod (Z.of_nat i) k) by lia.
    destruct (Z.eqb_spec (Z.of_nat i mod k) (k - 1)) as [E|E].
    + rewrite E, Hmax.
      replace (portMin g + (k - 1) + 1) with (portMin g + k) by lia.
      by rewrite Z.eqb_refl, Z.add_0_r.
    + destruct (Z.eqb_spec (uint16 (portMin g + Z.of_nat i mod k + 1))
                  (uint16 (portMax g))) as [E'|E'].
      * apply uint16_eq_small in E'; lia.
      * f_equal. lia.
Qed.

Lemma nextPorts_at16 n : forall g j,
  1 <= range_size g <= 65536 -> portCycle g = cursor16 g j ->
  (nextPorts n g).1 = cursor16 g <$> seq (S j) n /\
  portCycle (nextPorts n g).2 = cursor16 g (n + j).
Proof.
  induction n as [|n IH]; intros g j Hk Hc; [done|].
  destruct (nextPorts_S n g) as [-> ->].
  destruct (nextPort_config g) as (Hmn & Hmx & _).
  pose proof (nextPort_at16 g j Hk Hc) as Hp.
  destruct (IH (nextPort g).2 (S j)) as [-> ->].
  - unfold range_size in *. by rewrite Hmn, Hmx.
  - by rewrite <- nextPort_result, Hp.
  - rewrite Hp. split; [done|].
    replace (n + S j)%nat with (S n + j)%nat by lia. done.
Qed.

Lemma cursor16_inj g i1 i2 :
  1 <= range_size g <= 65536 ->
  (Z.of_nat i1 <= Z.of_nat i2 < Z.of_nat i1 + range_size g) ->
  cursor16 g (S i1) = cursor16 g (S i2) -> i1 = i2.
Proof.
  intros Hk Hb E. unfold cursor16 in E.
  set (k := range_size g) in *.
  pose proof (Z.mod_pos_bound (Z.of_nat i1) k ltac:(lia)).
  pose proof (Z.mod_pos_bound (Z.of_nat i2) k ltac:(lia)).
  apply uint16_eq_small in E; [|lia].
  pose proof (Z.div_mod (Z.of_nat i1) k ltac:(lia)).
  pose proof (Z.div_mod (Z.of_nat i2) k ltac:(lia)).
  assert (Z.of_nat i2 / k = Z.of_nat i1 / k) by nia.
  nia.
Qed.

(** Up to [max - min] successive results differ, on any such range. *)
Lemma nextPorts_NoDup16 n g j :
  range_size g <= 65536 -> portCycle g = cursor16 g j ->
  Z.of_nat n <= range_size g ->
  NoDup (nextPorts n g).1.
Proof.
  intros Hk Hc Hn. destruct n as [|n]; [constructor|].
  destruct (nextPorts_at16 (S n) g j) as [-> _]; [lia|done|].
  rewrite <- fmap_S_seq, <- list_fmap_compose.
  apply NoDup_fmap_2_strong; [|apply NoDup_seq].
  intros x y [Hx1 Hx2]%elem_of_seq [Hy1 Hy2]%elem_of_seq E.
  unfold compose in E.
  destruct (decide (x <= y)%nat).
  - apply (cursor16_inj g); [lia|lia|done].
  - symmetry. apply (cursor16_inj g); [lia|lia|done].
Qed.

End Allocator16.

(** ** The states of the loop *)

Lemma Cycle_results_nextPorts l : forall g,
  Cycle_results l g = (nextPorts (length l) g).1.
Proof.
  induction l as [|[k p] l IH]; intros g; [done|].
  cbn [Cycle_results length].
  destruct (Cycle_spec p g) as (Hp & He & _).
  destruct (Cycle p g) as [port g1]. cbn [fst snd] in *.
  destruct (nextPorts_S (length l) g) as [-> _].
  destruct (nextPorts_alloc_eq (length l) _ _ He) as [<- _].
  by rewrite IH, Hp.
Qed.

Section Loop.

Context (w : world) (Hw : range_complete w).

Lemma state_before_spawn g i : before_spawn g i (state_before w g i).
Proof.
  induction i as [|i IH]; [by split|].
  cbn [state_before]. by apply (spawn_env_rotation w Hw g i).
Qed.

Lemma state_before_names g i :
  (fun fw => (env fw, src fw)) <$> heap (state_before w g i)
  = (fun fw => (env fw, src fw)) <$> heap g.
Proof.
  induction i as [|i IH]; [done|]. cbn [state_before].
  destruct (spawn_env_config w i (state_before w g i)) as (_ & _ & _ & _ & ->).
  done.
Qed.

Lemma state_before_registry_ok g i :
  registry_ok g -> registry_ok (state_before w g i).
Proof.
  intros Hok. induction i as [|i IH]; [done|]. cbn [state_before].
  by apply (spawn_env_registry_ok w Hw).
Qed.

(** The environment of the [i]-th spawn, entry by entry, with the
    values the [Cycle] calls of that iteration return. *)
Lemma spawn_env_entries g i :
  (spawn_env w i (state_before w g i)).1 =
    Environ w ++
    zip_with (fun kp port =>
                env_of (heap g) kp.2 +:+ "=localhost:" +:+ pretty port)
      (rangeOrder w i (portMap g))
      (Cycle_results (rangeOrder w i (portMap g)) (state_before w g i)) /\
  (spawn_env w i (state_before w g i)).1 = rotation_env w g i /\
  Cycle_results (rangeOrder w i (portMap g)) (state_before w g i)
  = (nextPorts (size (portMap g)) (nextPorts (i * size (portMap g)) g).2).1.
Proof.
  destruct (state_before_spawn g i) as (He & Hm & Henv).
  destruct (spawn_env_rotation w Hw g i _ (state_before_spawn g i))
    as [Hrot _].
  assert (Hres : Cycle_results (rangeOrder w i (portMap g))
                   (state_before w g i)
                 = (nextPorts (size (portMap g))
                      (nextPorts (i * size (portMap g)) g).2).1).
  { rewrite Cycle_results_nextPorts, (range_length w Hw).
    by destruct (nextPorts_alloc_eq (size (portMap g)) _ _ He) as [-> _]. }
  split; [|done]. by rewrite Hrot, Hres.
Qed.

End Loop.

Lemma init_ok_inv f g :
  init f = Ok g ->
  registry_ok g /\ registry_keys g /\ portCycle g = cursor16 g 0 /\
  (forall k p, portMap g !! k = Some p <-> last_with_src (heap g) k p).
Proof.
  intros Hok. pose proof (init_inv f) as (_ & _ & Hreg & _ & Hc).
  rewrite Hok in Hreg, Hc. cbn in Hreg, Hc.
  split; [done|]. split; [|split].
  - unfold init in Hok. destruct (_ <? _)%nat; [done|].
    pose proof (init_pairs_keys (Split (addrEnvs f) ",")
                  (init_portCycle (state0 f))) as Hk.
    rewrite Hok in Hk. apply Hk.
    split; intros *; cbn; [by rewrite lookup_empty|done].
  - apply Hc. unfold init in Hok. by destruct (Args f).
  - unfold init in Hok. destruct (_ <? _)%nat; [done|].
    pose proof (init_pairs_last (Split (addrEnvs f) ",")
                  (init_portCycle (state0 f))) as Hl.
    rewrite Hok in Hl. apply Hl.
    intros k p. cbn. rewrite lookup_empty. unfold last_with_src.
    split; [done|]. by intros [(fw & Hfw & _) _].
Qed.

Lemma runner_prefix_from (w : world) (Hw : range_complete w) args
  (pid : nat -> Z) k : forall n i g gi,
  before_spawn g i gi -> (k <= n)%nat ->
  (forall j, (i <= j < i + k)%nat -> Start w j = Some (pid j)) ->
  exists rest,
    (runner w args n i gi).1.1 =
      spawn_restarts w args pid g i k ++
      EvStart args (rotation_env w g (i + k)) true (Start w (i + k)%nat)
        :: rest /\
    (Start w (i + k)%nat = None ->
     rest = [EvFatal "Error executing command:"] /\
     (runner w args n i gi).2 = Died) /\
    (is_Some (Start w (i + k)%nat) -> k = n ->
     rest = [] /\ (runner w args n i gi).2 = Blocked).
Proof.
  induction k as [|k IH]; intros n i g gi Hb Hk Hs;
    destruct (spawn_env_rotation w Hw g i gi Hb) as [Henv Hb'].
  - rewrite Nat.add_0_r. destruct n as [|n]; cbn [runner];
      destruct (spawn_env w i gi) as [envv g1]; cbn [fst snd] in *;
      subst envv; destruct (Start w i) as [pid0|] eqn:Hst.
    + exists []. split; [done|]. split; [done|]. by intros _ _.
    + exists [EvFatal "Error executing command:"].
      split; [done|]. split; [done|]. by intros [? [=]].
    + destruct (runner w args n (S i) g1) as [[tr g2] e].
      eexists. split; [done|]. split; [done|]. by intros _ [=].
    + exists [EvFatal "Error executing command:"].
      split; [done|]. split; [done|]. by intros [? [=]].
  - destruct n as [|n]; [lia|]. cbn [runner].
    destruct (spawn_env w i gi) as [envv g1]. cbn [fst snd] in *.
    rewrite (Hs i) by lia. subst envv.
    destruct (IH n (S i) g g1 Hb') as (rest & Htr & Hnone & Hsome);
      [lia|intros j Hj; apply Hs; lia|].
    destruct (runner w args n (S i) g1) as [[tr g2] e].
    cbn [fst snd] in *.
    replace (i + S k)%nat with (S i + k)%nat by lia.
    exists rest. rewrite Htr. split; [done|]. split; [done|].
    intros Hsm [= ->]. by apply Hsome.
Qed.

(** ** Claims on the supervisor *)

(** C9, as the claim states it, fails: with the range [[0, 65537)] and
    two forwarders, [2 <= max - min], yet the two [Cycle] calls of the
    first spawn both return 0. *)
Lemma spawn_ports_collide_beyond_uint16 :
  exists g,
    init (Flags "A:8080,B:8081" 0 65537 ["server"%string]) = Ok g /\
    Z.of_nat (size (portMap g)) <= range_size g /\
    (spawn_env (World [] (fun _ => Some 7) (fun _ m => map_to_list m)) 0 g).1
    = ["B=localhost:0"%string; "A=localhost:0"%string].
Proof. eexists. split; [by vm_compute|]. by vm_compute. Qed.

(** C9, amended.  After [init], when the range holds at most 2^16
    values and the registry holds at most [max - min] forwarders, the
    [Cycle] calls of any one iteration of the supervisor loop return
    pairwise distinct ports, one per forwarder of the registry, and the
    entries added to the child's environment are these forwarders'
    [NAME=localhost:PORT] with these ports, so no two of them name the
    same port. *)
Theorem spawn_ports_distinct (w : world) (f : flags) (g : state) (i : nat) :
  range_complete w -> init f = Ok g ->
  range_size g <= 65536 ->
  Z.of_nat (size (portMap g)) <= range_size g ->
  NoDup (Cycle_results (rangeOrder w i (portMap g)) (state_before w g i)) /\
  length (Cycle_results (rangeOrder w i (portMap g)) (state_before w g i))
  = size (portMap g) /\
  NoDup (pretty <$>
           Cycle_results (rangeOrder w i (portMap g)) (state_before w g i)) /\
  (spawn_env w i (state_before w g i)).1 =
    Environ w ++
    zip_with (fun kp port =>
                env_of (heap g) kp.2 +:+ "=localhost:" +:+ pretty port)
      (rangeOrder w i (portMap g))
      (Cycle_results (rangeOrder w i (portMap g)) (state_before w g i)).
Proof.
  intros Hw Hok Hk Hn.
  destruct (spawn_env_entries w Hw g i) as (Henv & _ & Hres).
  destruct (init_ok_inv f g Hok) as (_ & _ & Hc & _).
  assert (Hnd : NoDup (Cycle_results (rangeOrder w i (portMap g))
                         (state_before w g i))).
  { rewrite Hres. destruct (size (portMap g)) as [|m] eqn:Hm; [constructor|].
    destruct (nextPorts_at16 (i * S m) g 0) as [_ Hcur]; [lia|done|].
    destruct (nextPorts_config (i * S m) g) as [Hmn Hmx].
    apply (nextPorts_NoDup16 _ _ (i * S m + 0)).
    - unfold range_size in *. by rewrite Hmn, Hmx.
    - rewrite Hcur. symmetry. by apply cursor16_config.
    - unfold range_size in *. rewrite Hmn, Hmx. lia. }
  split; [done|]. split; [by rewrite Hres, nextPorts_length|].
  split; [|done]. by apply (NoDup_fmap_2 _).
Qed.

Lemma spawn_ports_distinct_witness :
  NoDup (Cycle_results
           (map_to_list (portMap (outcome_state
              (init (Flags "A:8080,B:8081" 50000 50003 ["server"%string])))))
           (outcome_state
              (init (Flags "A:8080,B:8081" 50000 50003 ["server"%string])))).
Proof.
  refine (proj1 (spawn_ports_distinct
    (World [] (fun _ => None) (fun _ m => map_to_list m))
    (Flags "A:8080,B:8081" 50000 50003 ["server"%string]) _ 0 _ _ _ _)).
  - by intros j m.
  - reflexivity.
  - by vm_compute.
  - by vm_compute.
Defined.

(** C4, as the claim states it, fails: with [-addr-env=A:8080,B:8080]
    both forwarders are declared and created, but the child's
    environment has an entry for [B] only, and [A] keeps destination
    0. *)
Lemma shadowed_forwarder_has_no_entry :
  exists g,
    init (Flags "A:8080,B:8080" 50000 50003 ["server"%string]) = Ok g /\
    heap g = [PortForwarder "A" 8080 0; PortForwarder "B" 8080 0] /\
    (spawn_env (World [] (fun _ => Some 7) (fun _ m => map_to_list m)) 0 g).1
    = ["B=localhost:50000"%string] /\
    heap (spawn_env (World [] (fun _ => Some 7) (fun _ m => map_to_list m))
            0 g).2
    = [PortForwarder "A" 8080 0; PortForwarder "B" 8080 50000].
Proof. eexists. split; [by vm_compute|]. by vm_compute. Qed.

(** C4, amended.  After [init] the registry [portMap] holds, for each
    public port (as a 16-bit value), the forwarder declared last for
    it, hence every declared forwarder when their public ports differ.
    On every spawn the child's environment is the inherited one
    followed by exactly one entry per forwarder of the registry, in the
    order the map is visited: [NAME=localhost:PORT] with the
    forwarder's [env] as NAME and, as PORT, the value its [Cycle]
    returned in this spawn, which is also its destination
    afterwards. *)
Theorem spawn_env_one_entry_per_forwarder (w : world) (f : flags)
  (g : state) (i : nat) :
  range_complete w -> init f = Ok g ->
  (forall k p, portMap g !! k = Some p <-> last_with_src (heap g) k p) /\
  (NoDup (src <$> heap g) ->
   forall p fw, heap g !! p = Some fw -> portMap g !! src fw = Some p) /\
  portMap (state_before w g i) = portMap g /\
  rangeOrder w i (portMap g) ≡ₚ map_to_list (portMap g) /\
  (spawn_env w i (state_before w g i)).1 =
    Environ w ++
    zip_with (fun kp port =>
                env_of (heap g) kp.2 +:+ "=localhost:" +:+ pretty port)
      (rangeOrder w i (portMap g))
      (Cycle_results (rangeOrder w i (portMap g)) (state_before w g i)) /\
  (forall j k p,
     rangeOrder w i (portMap g) !! j = Some (k, p) ->
     exists fw port,
       heap g !! p = Some fw /\ src fw = k /\
       Cycle_results (rangeOrder w i (portMap g)) (state_before w g i) !! j
         = Some port /\
       heap (spawn_env w i (state_before w g i)).2 !! p
         = Some (PortForwarder (env fw) (src fw) port) /\
       (spawn_env w i (state_before w g i)).1 !! (length (Environ w) + j)%nat
         = Some (env fw +:+ "=localhost:" +:+ pretty port)).
Proof.
  intros Hw Hok.
  destruct (init_ok_inv f g Hok) as (Hreg & [Hkeys _] & _ & Hlast).
  destruct (state_before_spawn w Hw g i) as (_ & Hm & _).
  destruct (spawn_env_entries w Hw g i) as (Henv & _ & _).
  split; [done|]. split.
  { intros Hnd p fw Hfw.
    pose proof (init_registry_complete f p fw) as Hc.
    rewrite Hok in Hc. by apply Hc. }
  split; [done|]. split; [apply Hw|]. split; [done|].
  intros j k p Hj.
  assert (Hin : portMap g !! k = Some p).
  { apply elem_of_map_to_list. rewrite <- (Hw i (portMap g)).
    by eapply list_elem_of_lookup_2. }
  destruct (Hkeys k p Hin) as (fw & Hfw & Hsrc).
  pose proof Hj as Hj'. rewrite <- Hm in Hj'.
  destruct (spawn_env_entry w Hw i (state_before w g i) j k p
              (state_before_registry_ok w Hw g i Hreg) Hj')
    as (fwi & port & Hfwi & Hport & Hdest).
  rewrite Hm, <- Cycle_results_nextPorts in Hport.
  assert (Hn : (env fwi, src fwi) = (env fw, src fw)).
  { pose proof (f_equal (fun l => l !! p) (state_before_names w g i)) as Hn.
    cbn in Hn. rewrite !list_lookup_fmap, Hfwi, Hfw in Hn.
    cbn in Hn. congruence. }
  injection Hn as Hne Hns. rewrite Hne, Hns in Hdest.
  exists fw, port. do 4 (split; [done|]).
  rewrite Henv, lookup_app_r, lookup_zip_with by lia.
  replace (length (Environ w) + j - length (Environ w))%nat with j by lia.
  rewrite Hj, Hport. cbn. unfold env_of. by rewrite Hfw.
Qed.

Lemma spawn_env_one_entry_per_forwarder_witness :
  (spawn_env
     (World ["HOME=/root"%string] (fun _ => Some 7)
        (fun _ m => map_to_list m)) 0
     (outcome_state
        (init (Flags "APP_ADDR:8080" 50000 50003 ["server"%string])))).1
  !! 1%nat = Some "APP_ADDR=localhost:50000"%string.
Proof.
  destruct (spawn_env_one_entry_per_forwarder
    (World ["HOME=/root"%string] (fun _ => Some 7)
       (fun _ m => map_to_list m))
    (Flags "APP_ADDR:8080" 50000 50003 ["server"%string])
    (outcome_state
       (init (Flags "APP_ADDR:8080" 50000 50003 ["server"%string]))) 0)
    as (_ & _ & _ & _ & _ & Hentry).
  - by intros j m.
  - reflexivity.
  - destruct (Hentry 0%nat 8080 0%nat)
      as (fw & port & Hfw & _ & Hport & _ & Hl).
    + by vm_compute.
    + vm_compute in Hfw, Hport. injection Hfw as <-. injection Hport as <-.
      exact Hl.
Defined.

(** C3, as the claim states it, fails: with [-addr-env=A:8080,B:8080]
    the spawn that follows the pulse carries a new value for [B] only;
    the declared forwarder [A] gets none. *)
Lemma restart_skips_shadowed_forwarder :
  exists g,
    init (Flags "A:8080,B:8080" 50000 50003 ["server"%string]) = Ok g /\
    heap g = [PortForwarder "A" 8080 0; PortForwarder "B" 8080 0] /\
    (runner
       (World [] (fun i => Some (100 + Z.of_nat i))
          (fun _ m => map_to_list m))
       ["server"%string] 1 0 g).1.1
    = [EvStart ["server"%string] ["B=localhost:50000"%string] true (Some 100);
       EvRecv; EvKill (-100) SIGKILL; EvWait 100;
       EvStart ["server"%string] ["B=localhost:50001"%string] true
         (Some 101)].
Proof. eexists. split; [by vm_compute|]. by vm_compute. Qed.

(** C3, amended.  After [init], for every restart pulse received while a
    child is running (the spawns so far succeeded), the supervisor
    kills that child's process group with SIGKILL once, then reaps the
    child once, and only then makes one new spawn, before the next
    pulse is received; if that spawn fails the supervisor ends in
    [log.Fatalln], and after the last pulse it blocks on the channel.
    The environment of each spawn carries, for every forwarder of the
    registry [portMap] (visited once each), the value its [Cycle]
    returned in that iteration; the registry holds, for each public
    port, the forwarder declared last for it. *)
Theorem runner_restart_cycle (w : world) (f : flags) (g : state)
  (pid : nat -> Z) (k n : nat) :
  range_complete w -> init f = Ok g -> (k <= n)%nat ->
  (forall j, (j < k)%nat -> Start w j = Some (pid j)) ->
  (exists rest,
     (runner w (Args f) n 0 g).1.1 =
       spawn_restarts w (Args f) pid g 0 k ++
       EvStart (Args f) (rotation_env w g k) true (Start w k) :: rest /\
     (Start w k = None ->
      rest = [EvFatal "Error executing command:"] /\
      (runner w (Args f) n 0 g).2 = Died) /\
     (is_Some (Start w k) -> k = n ->
      rest = [] /\ (runner w (Args f) n 0 g).2 = Blocked)) /\
  (forall k' p, portMap g !! k' = Some p <-> last_with_src (heap g) k' p) /\
  (forall i,
     rangeOrder w i (portMap g) ≡ₚ map_to_list (portMap g) /\
     rotation_env w g i =
       Environ w ++
       zip_with (fun kp port =>
                   env_of (heap g) kp.2 +:+ "=localhost:" +:+ pretty port)
         (rangeOrder w i (portMap g))
         (Cycle_results (rangeOrder w i (portMap g))
            (state_before w g i))).
Proof.
  intros Hw Hok Hk Hs. split; [|split].
  - apply (runner_prefix_from w Hw (Args f) pid k n 0 g g); try done.
    intros j Hj. apply Hs. lia.
  - by destruct (init_ok_inv f g Hok) as (_ & _ & _ & ?).
  - intros i. split; [apply Hw|].
    destruct (spawn_env_entries w Hw g i) as (Henv & Hrot & _).
    by rewrite <- Hrot.
Qed.

Lemma runner_restart_cycle_witness :
  (runner
       (World ["HOME=/root"%string] (fun i => Some (100 + Z.of_nat i))
          (fun _ m => map_to_list m))
       ["server"%string] 1 0
       (outcome_state
          (init (Flags "APP_ADDR:8080" 50000 50003 ["server"%string])))).1.1
    = [EvStart ["server"%string]
         ["HOME=/root"%string; "APP_ADDR=localhost:50000"%string] true
         (Some 100);
       EvRecv; EvKill (-100) SIGKILL; EvWait 100;
       EvStart ["server"%string]
         ["HOME=/root"%string; "APP_ADDR=localhost:50001"%string] true
         (Some 101)].
Proof.
  destruct (runner_restart_cycle
    (World ["HOME=/root"%string] (fun i => Some (100 + Z.of_nat i))
       (fun _ m => map_to_list m))
    (Flags "APP_ADDR:8080" 50000 50003 ["server"%string])
    (outcome_state
       (init (Flags "APP_ADDR:8080" 50000 50003 ["server"%string])))
    (fun i => 100 + Z.of_nat i) 1 1) as ((rest & Htr & _ & Hb) & _).
  - by intros j m.
  - reflexivity.
  - lia.
  - by intros j _.
  - destruct Hb as [-> _]; [by eexists|done|]. exact Htr.
Defined.
